(** * raft: value model and recursive-descent parser

    A shallow embedding of [object.cpp] (runtime values: rendering,
    truthiness, equality) and of [parser.cpp] (the recursive-descent
    parser with panic-mode recovery), followed by the properties the
    language front end is specified to have. *)

From Stdlib Require Import Bool List String ZArith Lia PeanoNat.
From Stdlib Require Import Floats.
Import ListNotations.

Local Open Scope string_scope.

(** ** Runtime values ([object.cpp]) *)

Module object.

(** Modelled from the spec: [object.h] is not among the sources.  The
    runtime value is the closed variant [String | Number | Boolean | Null |
    CallPtr], in the order in which [obj2str] visits the alternatives.  A
    [Number] is a C++ [double] (a binary64 float); a [CallPtr] is a shared
    pointer to a callable, of which only the address matters here. *)
Inductive Object : Type :=
| String (s : string)
| Number (d : float)
| Boolean (b : bool)
| Null
| CallPtr (p : positive).

(** What a visitation or a [std::get] can end in: a value, or one of the
    two exceptions the file can raise. *)
Inductive visit (A : Type) : Type :=
| Returns (a : A)
| UnknownObjectType          (* throw std::runtime_error{"Unknown Object type"} *)
| BadVariantAccess.          (* std::get on the wrong alternative *)
Arguments Returns {A} a.
Arguments UnknownObjectType {A}.
Arguments BadVariantAccess {A}.

(** [std::variant::index]. *)
Definition index (obj : Object) : nat :=
  match obj with
  | String _ => 0
  | Number _ => 1
  | Boolean _ => 2
  | Null => 3
  | CallPtr _ => 4
  end.

(** [std::holds_alternative<Null>] and [std::holds_alternative<Boolean>]. *)
Definition holds_Null (obj : Object) : bool :=
  match obj with Null => true | _ => false end.

Definition holds_Boolean (obj : Object) : bool :=
  match obj with Boolean _ => true | _ => false end.

(** [std::get<bool>]: throws unless the variant holds a [bool]. *)
Definition get_bool (obj : Object) : visit bool :=
  match obj with Boolean b => Returns b | _ => BadVariantAccess end.

Section Rendering.

(** [std::to_string(double)], which the C++ library provides. *)
Variable to_string : float -> string.

(** [obj2str]: one [if constexpr] branch per alternative; the last [else]
    throws. With the five alternatives above no value reaches it. *)
Definition obj2str (obj : Object) : visit string :=
  match obj with
  | String arg => Returns arg
  | Number arg => Returns (to_string arg)
  | Boolean arg => Returns (if arg then "true" else "false")
  | Null => Returns "nil"
  | CallPtr _ => Returns "callable"
  end.

(** The earlier [obj2str] kept in the same file: it has no branch for
    [CallPtr], so a callable takes the final [else]. *)
Definition obj2str_v0 (obj : Object) : visit string :=
  match obj with
  | String arg => Returns arg
  | Number arg => Returns (to_string arg)
  | Boolean arg => Returns (if arg then "true" else "false")
  | Null => Returns "nil"
  | CallPtr _ => UnknownObjectType
  end.

End Rendering.

(** [isTruthy]: false and nil are falsey, and everything else is truthy. *)
Definition isTruthy (obj : Object) : visit bool :=
  if holds_Null obj then Returns false
  else if holds_Boolean obj then get_bool obj
  else Returns true.

(** The earlier [isTruthy], written as a visitor with a branch per
    alternative and a throwing [else]. *)
Definition isTruthy_v0 (obj : Object) : visit bool :=
  match obj with
  | String _ => Returns true
  | Number _ => Returns true
  | Boolean arg => Returns arg
  | Null => Returns false
  | CallPtr _ => UnknownObjectType
  end.

(** [operator==] of [std::variant]: equal indices and equal payloads, the
    payloads compared by their own [==] (IEEE equality on [double],
    address equality on the shared pointer). *)
Definition variant_eq (a b : Object) : bool :=
  match a, b with
  | String x, String y => String.eqb x y
  | Number x, Number y => PrimFloat.eqb x y
  | Boolean x, Boolean y => Bool.eqb x y
  | Null, Null => true
  | CallPtr p, CallPtr q => Pos.eqb p q
  | _, _ => false
  end.

Definition isEqual (a b : Object) : bool :=
  if holds_Null a && holds_Null b then true
  else if holds_Null a then false
  else variant_eq a b.

(** A [Number] whose payload is in the IEEE class of NaNs. *)
Definition is_NaN (obj : Object) : bool :=
  match obj with
  | Number d =>
      match PrimFloat.classify d with
      | FloatClass.NaN => true
      | _ => false
      end
  | _ => false
  end.

End object.

(** ** Tokens ([token.def]) *)

(** The kinds of token.  The keywords and the multi-character tokens are
    those of [token.def]; the single-character kinds come from
    [unicode/basic_latin.def], which is not among the sources, and are
    named as [parser.cpp] names them ([parser.cpp] writes [BangEqual] for
    the kind [token.def] lists as [ExclaimEqual]). *)
Module TokenType.

Inductive t : Type :=
(* single-character tokens *)
| LeftParenthesis | RightParenthesis | LeftCurlyBracket | RightCurlyBracket
| Comma | Dot | Semicolon | Minus | Plus | Slash | Star
| Bang | Equal | GreaterThanSign | LessThanSign
(* two character tokens *)
| BangEqual | EqualEqual | GreaterEqual | LessEqual
(* atoms *)
| Identifier | NumberLiteral | StringLiteral
(* keywords *)
| And | Class | Else | False | Fun | For | If | Nil | Or | Print | Return
| Super | This | True | Var | While
(* end of input *)
| EndOfFile.

End TokenType.

Definition TokenType_eq_dec (a b : TokenType.t) : {a = b} + {a <> b}.
Proof. decide equality. Defined.

Definition TokenType_eqb (a b : TokenType.t) : bool :=
  if TokenType_eq_dec a b then true else false.

(** Modelled from the spec: [token.h] is not among the sources.  A token
    has a kind, the raw lexeme, the attached literal value and the line
    it was read on. *)
Record Token : Type := mkToken {
  type : TokenType.t;
  lexeme : string;
  literal : object.Object;
  line : Z
}.

(** ** Syntax trees *)

(** Modelled from the spec: the node classes of the missing AST header,
    with the constructor arguments [parser.cpp] passes to [makeAstNode].
    A pointer that may be [nullptr] is an [option].  The node class
    [Variable] is written [Variable_], the plain word being reserved. *)
Inductive Expr : Type :=
| Literal (value : object.Object)
| Variable_ (name : Token)
| Assign (name : Token) (value : Expr)
| Grouping (expression : Expr)
| Unary (op : Token) (right : Expr)
| Binary (left : Expr) (op : Token) (right : Expr)
| Logical (left : Expr) (op : Token) (right : Expr).

Inductive Stmt : Type :=
| ExprStmt (expression : Expr)
| Print (expression : Expr)
| VarDecl (name : Token) (initializer : option Expr)
| Block (statements : list (option Stmt))
| If (condition : Expr) (thenBranch : Stmt) (elseBranch : option Stmt)
| While (condition : Expr) (body : Stmt).


(** ** The parser monad *)

(** [RuntimeError]: the offending token and the message ([what()]). *)
Record RuntimeError : Type := mkRuntimeError {
  token : Token;
  what : string
}.

(** What a run can observe and change: the parser's cursor [current] and
    the diagnostics [Raft::error] has received so far, oldest first. *)
Record State : Type := mkState {
  current : nat;
  diagnostics : list (Z * string)
}.

(** The ways a member function can end: it returns, it throws a
    [RuntimeError], [tokens.at] throws [std::out_of_range] (which no
    handler of the parser catches), or the model ran out of fuel. *)
Inductive Outcome (A : Type) : Type :=
| Ok (a : A) (s : State)
| Throw (ex : RuntimeError) (s : State)
| OutOfRange (s : State)
| OutOfFuel.
Arguments Ok {A} a s.
Arguments Throw {A} ex s.
Arguments OutOfRange {A} s.
Arguments OutOfFuel {A}.

Definition M (A : Type) : Type := State -> Outcome A.

Definition ret {A} (a : A) : M A := fun s => Ok a s.

Definition bind {A B} (m : M A) (k : A -> M B) : M B :=
  fun s =>
    match m s with
    | Ok a s' => k a s'
    | Throw ex s' => Throw ex s'
    | OutOfRange s' => OutOfRange s'
    | OutOfFuel => OutOfFuel
    end.

Definition throw {A} (ex : RuntimeError) : M A := fun s => Throw ex s.

Definition out_of_fuel {A} : M A := fun _ => OutOfFuel.

(** [try { body } catch (const RuntimeError &ex) { handler }]. *)
Definition try_catch {A} (body : M A) (handler : RuntimeError -> M A) : M A :=
  fun s =>
    match body s with
    | Throw ex s' => handler ex s'
    | r => r
    end.

Declare Scope parser_scope.
Delimit Scope parser_scope with parser.
Notation "x <- m ;; k" := (bind m (fun x => k))
  (at level 61, m at next level, right associativity) : parser_scope.
Notation "m ;; k" := (bind m (fun _ => k))
  (at level 61, right associativity) : parser_scope.
Local Open Scope parser_scope.

(** [Raft::error(line, message)]: the diagnostics sink. *)
Definition error (line : Z) (message : string) : M unit :=
  fun s => Ok tt (mkState (current s) (diagnostics s ++ [(line, message)])).

(** The state in which a parse starts. *)
Definition initial : State := mkState 0 [].

(** ** The parser ([parser.cpp]) *)

Section Parser.

(** The token sequence the parser was constructed with. *)
Variable tokens : list Token.

(** *** Cursor primitives *)

(** [tokens.at(current)]. *)
Definition peek : M Token :=
  fun s =>
    match nth_error tokens (current s) with
    | Some t => Ok t s
    | None => OutOfRange s
    end.

(** [tokens.at(current - 1)]: with [current] at zero the index wraps
    around and [at] throws. *)
Definition previous : M Token :=
  fun s =>
    match current s with
    | O => OutOfRange s
    | S c =>
        match nth_error tokens c with
        | Some t => Ok t s
        | None => OutOfRange s
        end
    end.

Definition isAtEnd : M bool :=
  t <- peek ;;
  ret (TokenType_eqb (type t) TokenType.EndOfFile).

(** [current++]. *)
Definition increment : M unit :=
  fun s => Ok tt (mkState (S (current s)) (diagnostics s)).

Definition advance : M Token :=
  atEnd <- isAtEnd ;;
  (if atEnd then ret tt else increment) ;;
  previous.

Definition check (ty : TokenType.t) : M bool :=
  atEnd <- isAtEnd ;;
  if atEnd then ret false
  else
    t <- peek ;;
    ret (TokenType_eqb (type t) ty).

Definition consume (ty : TokenType.t) (message : string) : M Token :=
  b <- check ty ;;
  if b then advance
  else
    t <- peek ;;
    throw (mkRuntimeError t message).

(** Modelled from the spec: the variadic [match] is a template of the
    missing [parser.h].  It tests the kinds in order and consumes the
    current token at the first kind that [check] accepts. *)
Fixpoint match_ (types : list TokenType.t) : M bool :=
  match types with
  | [] => ret false
  | ty :: rest =>
      b <- check ty ;;
      if b then advance ;; ret true else match_ rest
  end.

(** *** Panic-mode recovery *)

(** The kinds at which the [switch] of [synchronize] returns. *)
Definition starts_statement (ty : TokenType.t) : bool :=
  match ty with
  | TokenType.Class | TokenType.Fun | TokenType.Var | TokenType.For
  | TokenType.If | TokenType.While | TokenType.Print | TokenType.Return => true
  | _ => false
  end.

(** The [while] loop of [synchronize]. *)
Fixpoint synchronize_loop (fuel : nat) : M unit :=
  match fuel with
  | O => out_of_fuel
  | S fuel' =>
      atEnd <- isAtEnd ;;
      if atEnd then ret tt
      else
        p <- previous ;;
        if TokenType_eqb (type p) TokenType.Semicolon then ret tt
        else
          t <- peek ;;
          if starts_statement (type t) then ret tt
          else advance ;; synchronize_loop fuel'
  end.

Definition synchronize (fuel : nat) : M unit :=
  advance ;;
  synchronize_loop fuel.

(** *** Expressions *)

(** The loop shared by the binary levels,
    [while (match(types...)) { expr = body(expr); }]. *)
Fixpoint while_match (fuel : nat) (types : list TokenType.t)
    (body : Expr -> M Expr) (expr : Expr) : M Expr :=
  match fuel with
  | O => out_of_fuel
  | S fuel' =>
      b <- match_ types ;;
      if b then
        expr' <- body expr ;;
        while_match fuel' types body expr'
      else ret expr
  end.

Section Levels.

(** The call [expression()] that [primary] makes for a parenthesised
    expression: the knot is tied in [expression] below. *)
Variable expression : M Expr.

(** primary :: NUMBER | STRING | "true" | "false" | "nil"
             | "(" expression ")" | IDENTIFIER *)
Definition primary : M Expr :=
  b <- match_ [TokenType.False] ;;
  if b then ret (Literal (object.Boolean false)) else
  b <- match_ [TokenType.True] ;;
  if b then ret (Literal (object.Boolean true)) else
  b <- match_ [TokenType.Nil] ;;
  if b then ret (Literal object.Null) else
  b <- match_ [TokenType.NumberLiteral; TokenType.StringLiteral] ;;
  if b then t <- previous ;; ret (Literal (literal t)) else
  b <- match_ [TokenType.Identifier] ;;
  if b then t <- previous ;; ret (Variable_ t) else
  b <- match_ [TokenType.LeftParenthesis] ;;
  if b then
    expr <- expression ;;
    consume TokenType.RightParenthesis "Exprect ')' after expression" ;;
    ret (Grouping expr)
  else
    t <- peek ;;
    throw (mkRuntimeError t "Expect expression").

(** unary :: ( "!" "-" ) unary | primary *)
Fixpoint unary (fuel : nat) : M Expr :=
  match fuel with
  | O => out_of_fuel
  | S fuel' =>
      b <- match_ [TokenType.Bang; TokenType.Minus] ;;
      if b then
        op <- previous ;;
        right <- unary fuel' ;;
        ret (Unary op right)
      else primary
  end.

(** factor :: unary ( ( "/" | "*" ) unary )* *)
Definition factor (fuel : nat) : M Expr :=
  expr <- unary fuel ;;
  while_match fuel [TokenType.Slash; TokenType.Star]
    (fun expr =>
       op <- previous ;;
       right <- unary fuel ;;
       ret (Binary expr op right))
    expr.

(** term :: factor ( ("-" | "+" ) factor )* *)
Definition term (fuel : nat) : M Expr :=
  expr <- factor fuel ;;
  while_match fuel [TokenType.Minus; TokenType.Plus]
    (fun expr =>
       op <- previous ;;
       right <- factor fuel ;;
       ret (Binary expr op right))
    expr.

(** comparison :: term ( ( ">" | ">=" | "<" | "<=" ) term )* *)
Definition comparison (fuel : nat) : M Expr :=
  expr <- term fuel ;;
  while_match fuel
    [TokenType.GreaterThanSign; TokenType.GreaterEqual;
     TokenType.LessThanSign; TokenType.LessEqual]
    (fun expr =>
       op <- previous ;;
       right <- term fuel ;;
       ret (Binary expr op right))
    expr.

(** equality :: comparison ( ( "!=" | "==" ) comparision )* *)
Definition equality (fuel : nat) : M Expr :=
  expr <- comparison fuel ;;
  while_match fuel [TokenType.BangEqual; TokenType.EqualEqual]
    (fun expr =>
       op <- previous ;;
       right <- comparison fuel ;;
       ret (Binary expr op right))
    expr.

(** logic_and :: equality ( "and" equality )* *)
Definition logicAnd (fuel : nat) : M Expr :=
  expr <- equality fuel ;;
  while_match fuel [TokenType.And]
    (fun expr =>
       op <- previous ;;
       right <- equality fuel ;;
       ret (Logical expr op right))
    expr.

(** logic_or :: logic_and ( "or" logic_and )* *)
Definition logicOr (fuel : nat) : M Expr :=
  expr <- logicAnd fuel ;;
  while_match fuel [TokenType.Or]
    (fun expr =>
       op <- previous ;;
       right <- logicAnd fuel ;;
       ret (Logical expr op right))
    expr.

(** assignment :: IDENTIFIER "=" assignment | logic_or *)
Fixpoint assignment (fuel : nat) : M Expr :=
  match fuel with
  | O => out_of_fuel
  | S fuel' =>
      expr <- logicOr fuel ;;
      b <- match_ [TokenType.Equal] ;;
      if b then
        equals <- previous ;;
        value <- assignment fuel' ;;
        match expr with
        | Variable_ name => ret (Assign name value)
        | _ =>
            error (line equals) "Invalid assignment target" ;;
            ret expr
        end
      else ret expr
  end.

End Levels.

(** expression :: assignment *)
Fixpoint expression (fuel : nat) : M Expr :=
  match fuel with
  | O => out_of_fuel
  | S fuel' => assignment (expression fuel') fuel
  end.

(** *** Statements *)

(** "var" IDENTIFIER ( "=" expression )? ";" *)
Definition varDeclaration (fuel : nat) : M Stmt :=
  name <- consume TokenType.Identifier "Expect variable name" ;;
  b <- match_ [TokenType.Equal] ;;
  initializer <- (if b then e <- expression fuel ;; ret (Some e) else ret None) ;;
  consume TokenType.Semicolon "Expect ';' after variable declaration" ;;
  ret (VarDecl name initializer).

(** exprStmt :: expresson ";" *)
Definition expressionStatement (fuel : nat) : M Stmt :=
  expr <- expression fuel ;;
  consume TokenType.Semicolon "Exprect ';' after expession" ;;
  ret (ExprStmt expr).

(** printStmt :: "print" expression ";" *)
Definition printStatement (fuel : nat) : M Stmt :=
  value <- expression fuel ;;
  consume TokenType.Semicolon "Expect ';' after value" ;;
  ret (Print value).

Section Nested.

(** The calls [statement()] and [declaration()] made from inside a
    statement: the knot is tied in [statement] below. *)
Variable statement : M Stmt.
Variable declaration : M (option Stmt).

(** forStmt :: "for" "(" (varDecl | exprStmt | ";" ) expression? ";"
               expression? ")" statement *)
Definition forStatement (fuel : nat) : M Stmt :=
  consume TokenType.LeftParenthesis "Expect '(' after 'for'" ;;
  b <- match_ [TokenType.Semicolon] ;;
  initializer <-
    (if b then ret None
     else
       b <- match_ [TokenType.Var] ;;
       if b then s <- varDeclaration fuel ;; ret (Some s)
       else s <- expressionStatement fuel ;; ret (Some s)) ;;
  b <- check TokenType.Semicolon ;;
  condition <- (if negb b then e <- expression fuel ;; ret (Some e) else ret None) ;;
  consume TokenType.Semicolon "Expect ';' after loop condition" ;;
  b <- check TokenType.RightParenthesis ;;
  increment <- (if negb b then e <- expression fuel ;; ret (Some e) else ret None) ;;
  consume TokenType.RightParenthesis "Expect ')' after for clauses" ;;
  body <- statement ;;
  (* desugaring for statement to while statement *)
  let body :=
    match increment with
    | Some increment => Block [Some body; Some (ExprStmt increment)]
    | None => body
    end in
  let condition :=
    match condition with
    | Some condition => condition
    | None => Literal (object.Boolean true)
    end in
  let body := While condition body in
  let body :=
    match initializer with
    | Some initializer => Block [Some initializer; Some body]
    | None => body
    end in
  ret body.

(** ifStmt :: "if" "(" expression ")" statement ( "else" statement )? *)
Definition ifStatement (fuel : nat) : M Stmt :=
  consume TokenType.LeftParenthesis "Exprect '(' after 'if'" ;;
  condition <- expression fuel ;;
  consume TokenType.RightParenthesis "Exprect ')' after if condition" ;;
  thenBranch <- statement ;;
  b <- match_ [TokenType.Else] ;;
  elseBranch <- (if b then s <- statement ;; ret (Some s) else ret None) ;;
  ret (If condition thenBranch elseBranch).

(** whileStmt :: "while" "(" expression ")" statement *)
Definition whileStatement (fuel : nat) : M Stmt :=
  consume TokenType.LeftParenthesis "Expect '(' after 'while'" ;;
  condition <- expression fuel ;;
  consume TokenType.RightParenthesis "Exprect ')' after condition" ;;
  body <- statement ;;
  ret (While condition body).

(** The [while] loop of [block], with the vector built so far. *)
Fixpoint block_loop (fuel : nat) (statements : list (option Stmt))
    : M (list (option Stmt)) :=
  match fuel with
  | O => out_of_fuel
  | S fuel' =>
      b <- check TokenType.RightCurlyBracket ;;
      atEnd <- (if negb b then isAtEnd else ret true) ;;
      if negb b && negb atEnd then
        d <- declaration ;;
        block_loop fuel' (statements ++ [d])
      else ret statements
  end.

(** block :: "{" declaration* "}" *)
Definition block (fuel : nat) : M (list (option Stmt)) :=
  statements <- block_loop fuel [] ;;
  consume TokenType.RightCurlyBracket "Exprect '}' after block" ;;
  ret statements.

(** The body of the [try] in [declaration]. *)
Definition declaration_body (fuel : nat) : M Stmt :=
  b <- match_ [TokenType.Var] ;;
  if b then varDeclaration fuel else statement.

End Nested.

(** declaration :: varDecl | statement, around the statement it is given
    for the call [statement()].  A caught error yields [nullptr]. *)
Definition declaration_of (statement : M Stmt) (fuel : nat) : M (option Stmt) :=
  try_catch
    (s <- declaration_body statement fuel ;; ret (Some s))
    (fun ex =>
       error (line (token ex)) (what ex) ;;
       synchronize fuel ;;
       ret None).

(** statement :: exprStmt | forStmt | ifStmt | printStmt | whileStmt | block *)
Fixpoint statement (fuel : nat) : M Stmt :=
  match fuel with
  | O => out_of_fuel
  | S fuel' =>
      b <- match_ [TokenType.For] ;;
      if b then forStatement (statement fuel') fuel else
      b <- match_ [TokenType.If] ;;
      if b then ifStatement (statement fuel') fuel else
      b <- match_ [TokenType.Print] ;;
      if b then printStatement fuel else
      b <- match_ [TokenType.While] ;;
      if b then whileStatement (statement fuel') fuel else
      b <- match_ [TokenType.LeftCurlyBracket] ;;
      if b then
        statements <- block (declaration_of (statement fuel') fuel) fuel ;;
        ret (Block statements)
      else expressionStatement fuel
  end.

(** declaration :: varDecl | statement *)
Definition declaration (fuel : nat) : M (option Stmt) :=
  declaration_of (statement fuel) fuel.

(** The [while] loop of [parse] under its [try]: [statements] lives
    outside the [try], so when the handler has run the function returns
    the vector as it stood before the failing call. *)
Fixpoint parse_loop (fuel fuel0 : nat) (statements : list (option Stmt))
    : M (list (option Stmt)) :=
  match fuel with
  | O => out_of_fuel
  | S fuel' =>
      atEnd <- isAtEnd ;;
      if atEnd then ret statements
      else
        r <- try_catch
               (d <- declaration fuel0 ;; ret (Some d))
               (fun ex =>
                  error (line (token ex)) (what ex) ;;
                  synchronize fuel0 ;;
                  ret None) ;;
        match r with
        | Some d => parse_loop fuel' fuel0 (statements ++ [d])
        | None => ret statements
        end
  end.

(** program :: declaration* EOF *)
Definition parse (fuel : nat) : M (list (option Stmt)) :=
  parse_loop fuel fuel [].

End Parser.

(** * Specification vocabulary *)

(** [wp m Q E s]: run from [s], [m] either returns a value and a state
    satisfying [Q] or throws a [RuntimeError] in a state satisfying [E];
    in particular no [tokens.at] goes out of range and the fuel given
    suffices. *)
Definition wp {A} (m : M A) (Q : A -> State -> Prop)
    (E : RuntimeError -> State -> Prop) (s : State) : Prop :=
  match m s with
  | Ok a s' => Q a s'
  | Throw ex s' => E ex s'
  | OutOfRange _ => Logic.False
  | OutOfFuel => Logic.False
  end.

(** The state after [current++]. *)
Definition next (s : State) : State := mkState (S (current s)) (diagnostics s).

(** Whether the token at index [c] is the end-of-input token. *)
Definition at_end (tokens : list Token) (c : nat) : bool :=
  match nth_error tokens c with
  | Some t => TokenType_eqb (type t) TokenType.EndOfFile
  | None => true
  end.

(** Whether [check ty] accepts the token at index [c]. *)
Definition kind_is (tokens : list Token) (ty : TokenType.t) (c : nat) : bool :=
  match nth_error tokens c with
  | Some t =>
      negb (TokenType_eqb (type t) TokenType.EndOfFile)
      && TokenType_eqb (type t) ty
  | None => false
  end.

(** The cursor is at or before the sentinel, which is at index [N]. *)
Definition inb (N : nat) (s : State) : Prop := current s <= N.

(** Fuel [n] covers the tokens from the cursor to the sentinel. *)
Definition fits (N n : nat) (s : State) : Prop := S N - current s <= n.

(** [m] leaves the cursor where it was or further on, within bounds. *)
Definition monotone (N n : nat) {A} (m : M A) : Prop :=
  forall s, inb N s -> fits N n s ->
    wp m (fun _ s' => current s <= current s' /\ inb N s')
         (fun _ s' => current s <= current s' /\ inb N s') s.

(** [m] consumes at least one token whenever it returns. *)
Definition advancing (N n : nat) {A} (m : M A) : Prop :=
  forall s, inb N s -> fits N n s ->
    wp m (fun _ s' => current s < current s' /\ inb N s')
         (fun _ s' => current s <= current s' /\ inb N s') s.

(** [m], started at a token other than the end of input, consumes at
    least one token and never throws. *)
Definition recovering (tokens : list Token) (N n : nat) {A} (m : M A) : Prop :=
  forall s, inb N s -> fits N n s -> at_end tokens (current s) = false ->
    wp m (fun _ s' => current s < current s' /\ inb N s')
         (fun _ _ => Logic.False) s.

(** The kind of the token at index [c]; past the sequence, the sentinel's. *)
Definition kind_at (tokens : list Token) (c : nat) : TokenType.t :=
  match nth_error tokens c with
  | Some t => type t
  | None => TokenType.EndOfFile
  end.

(** From an error raised with the cursor at [c], the broken statement
    runs up to a [;] at index [j]: no token of [c..j] ends the input,
    none before [j] is a [;], and none after [c] begins a statement. *)
Definition skips_to (tokens : list Token) (c j : nat) : bool :=
  Nat.leb c j
  && TokenType_eqb (kind_at tokens j) TokenType.Semicolon
  && forallb (fun p => negb (at_end tokens p)) (seq c (S j - c))
  && forallb (fun p => negb (TokenType_eqb (kind_at tokens p) TokenType.Semicolon))
       (seq c (j - c))
  && forallb (fun p => negb (starts_statement (kind_at tokens p)))
       (seq (S c) (j - c)).

(** The entries of a statement vector that are [nullptr]. *)
Definition null_entries (l : list (option Stmt)) : nat :=
  List.length (filter (fun o => match o with None => true | Some _ => false end) l).

(** [toplevel tokens fuel s l ds s']: from [s] to the end of input the
    source is a sequence of statements, each of them either well formed
    (the body of [declaration] returns it and reports nothing) or
    malformed (the body raises a parse error, having reported nothing, and
    the broken statement runs up to a [;]).  [l] has the statement of each
    well-formed one and [None] for each malformed one, in order; [ds] has
    the line and message of each error raised, in order. *)
Inductive toplevel (tokens : list Token) (fuel : nat)
  : State -> list (option Stmt) -> list (Z * string) -> State -> Prop :=
| toplevel_end s :
    at_end tokens (current s) = true ->
    toplevel tokens fuel s [] [] s
| toplevel_good s stmt s1 l ds s' :
    at_end tokens (current s) = false ->
    declaration_body tokens (statement tokens fuel) fuel s = Ok stmt s1 ->
    diagnostics s1 = diagnostics s ->
    toplevel tokens fuel s1 l ds s' ->
    toplevel tokens fuel s (Some stmt :: l) ds s'
| toplevel_bad s ex s1 j l ds s' :
    at_end tokens (current s) = false ->
    declaration_body tokens (statement tokens fuel) fuel s = Throw ex s1 ->
    diagnostics s1 = diagnostics s ->
    skips_to tokens (current s1) j = true ->
    toplevel tokens fuel
      (mkState (S j) (diagnostics s ++ [(line (token ex), what ex)])) l ds s' ->
    toplevel tokens fuel s (None :: l) ((line (token ex), what ex) :: ds) s'.


(** [m] lets no [RuntimeError] out. *)
Definition no_throw {A} (m : M A) : Prop :=
  forall s ex s', m s <> Throw ex s'.

(** [refines m1 m2]: wherever [m1] does not run out of fuel, [m2] does
    what [m1] does. *)
Definition refines {A} (m1 m2 : M A) : Prop :=
  forall s, m1 s <> OutOfFuel -> m2 s = m1 s.

(** ** Sample sources, as the scanner hands them over *)

Module sample.

Definition tok (ty : TokenType.t) (lexeme : string) (line : Z) : Token :=
  mkToken ty lexeme object.Null line.

Definition number (lexeme : string) (d : float) (line : Z) : Token :=
  mkToken TokenType.NumberLiteral lexeme (object.Number d) line.

Definition ident (lexeme : string) (line : Z) : Token :=
  tok TokenType.Identifier lexeme line.

Definition semicolon (line : Z) : Token := tok TokenType.Semicolon ";" line.

Definition eof (line : Z) : Token := tok TokenType.EndOfFile "" line.

Definition lit (d : float) : Expr := Literal (object.Number d).

(** for (var i = 0; i < 3; i = i + 1) print i; *)
Definition for_loop : list Token :=
  [ tok TokenType.For "for" 1; tok TokenType.LeftParenthesis "(" 1;
    tok TokenType.Var "var" 1; ident "i" 1; tok TokenType.Equal "=" 1;
    number "0" 0%float 1; semicolon 1;
    ident "i" 1; tok TokenType.LessThanSign "<" 1; number "3" 3%float 1;
    semicolon 1;
    ident "i" 1; tok TokenType.Equal "=" 1; ident "i" 1;
    tok TokenType.Plus "+" 1; number "1" 1%float 1;
    tok TokenType.RightParenthesis ")" 1;
    tok TokenType.Print "print" 1; ident "i" 1; semicolon 1; eof 1 ]%Z.

(** for (;;) print 1; *)
Definition for_ever : list Token :=
  [ tok TokenType.For "for" 1; tok TokenType.LeftParenthesis "(" 1;
    semicolon 1; semicolon 1; tok TokenType.RightParenthesis ")" 1;
    tok TokenType.Print "print" 1; number "1" 1%float 1; semicolon 1;
    eof 1 ]%Z.


(** 1 + 2 * 3 *)
Definition sum_of_product : list Token :=
  [ number "1" 1%float 1; tok TokenType.Plus "+" 1; number "2" 2%float 1;
    tok TokenType.Star "*" 1; number "3" 3%float 1; eof 1 ]%Z.

(** a = b or c and d == e < f + g * -h *)
Definition every_level : list Token :=
  [ ident "a" 1; tok TokenType.Equal "=" 1; ident "b" 1;
    tok TokenType.Or "or" 1; ident "c" 1; tok TokenType.And "and" 1;
    ident "d" 1; tok TokenType.EqualEqual "==" 1; ident "e" 1;
    tok TokenType.LessThanSign "<" 1; ident "f" 1; tok TokenType.Plus "+" 1;
    ident "g" 1; tok TokenType.Star "*" 1; tok TokenType.Minus "-" 1;
    ident "h" 1; eof 1 ]%Z.


(** print ; print 1 ; var = 2 ; print 3 ;  one statement a line *)
Definition two_errors_body : list Token :=
  [ tok TokenType.Print "print" 1; semicolon 1;
    tok TokenType.Print "print" 2; number "1" 1%float 2; semicolon 2;
    tok TokenType.Var "var" 3; tok TokenType.Equal "=" 3;
    number "2" 2%float 3; semicolon 3;
    tok TokenType.Print "print" 4; number "3" 3%float 4; semicolon 4 ]%Z.

Definition two_errors : list Token := two_errors_body ++ [eof 5].

(** What [parse] returns for [two_errors], and what it has reported. *)
Definition two_errors_statements : list (option Stmt) :=
  [ None; Some (Print (lit 1)); None; Some (Print (lit 3)) ].

Definition two_errors_diagnostics : list (Z * string) :=
  [ (1, "Expect expression"); (3, "Expect variable name") ]%Z.

End sample.

(** ** Vocabulary for the further properties *)

(** A [Number] whose payload is a zero, of either sign. *)
Definition is_zero (obj : object.Object) : bool :=
  match obj with
  | object.Number d =>
      match PrimFloat.classify d with
      | FloatClass.PZero | FloatClass.NZero => true
      | _ => false
      end
  | _ => false
  end.

(** The kinds with which [primary] or [unary] can begin. *)
Definition begins_expression (ty : TokenType.t) : bool :=
  match ty with
  | TokenType.False | TokenType.True | TokenType.Nil
  | TokenType.NumberLiteral | TokenType.StringLiteral
  | TokenType.Identifier | TokenType.LeftParenthesis
  | TokenType.Bang | TokenType.Minus => true
  | _ => false
  end.

(** The kinds [statement] dispatches on before it tries an expression. *)
Definition opens_statement (ty : TokenType.t) : bool :=
  match ty with
  | TokenType.For | TokenType.If | TokenType.Print | TokenType.While
  | TokenType.LeftCurlyBracket => true
  | _ => false
  end.

(** The null pointers a statement holds, at any depth: [declaration]
    puts them into the vector of a [Block]. *)
Fixpoint nulls (s : Stmt) : nat :=
  match s with
  | Block l =>
      (fix entries (l : list (option Stmt)) : nat :=
         match l with
         | [] => 0
         | o :: r => match o with None => 1 | Some x => nulls x end + entries r
         end) l
  | If _ thenBranch elseBranch =>
      nulls thenBranch + match elseBranch with Some x => nulls x | None => 0 end
  | While _ body => nulls body
  | ExprStmt _ | Print _ | VarDecl _ _ => 0
  end.

(** The same for an entry of a statement vector, and for a vector. *)
Definition nulls_entry (o : option Stmt) : nat :=
  match o with None => 1 | Some x => nulls x end.

Fixpoint nulls_list (l : list (option Stmt)) : nat :=
  match l with
  | [] => 0
  | o :: r => nulls_entry o + nulls_list r
  end.

(** [wlp m Q E s]: if [m], run from [s], returns, then [Q] holds of the
    value and the state; if it throws a [RuntimeError], then [E] holds. *)
Definition wlp {A} (m : M A) (Q : A -> State -> Prop)
    (E : RuntimeError -> State -> Prop) (s : State) : Prop :=
  match m s with
  | Ok a s' => Q a s'
  | Throw ex s' => E ex s'
  | OutOfRange _ => Logic.True
  | OutOfFuel => Logic.True
  end.

(** The diagnostics [d'] are the diagnostics [d] with more at the end. *)
Definition appended (d d' : list (Z * string)) : Prop :=
  exists ds, d' = (d ++ ds)%list.

(** Between [s] and [s'] the sink has only received more diagnostics,
    at least [k] of them. *)
Definition since (s s' : State) (k : nat) : Prop :=
  appended (diagnostics s) (diagnostics s') /\
  List.length (diagnostics s) + k <= List.length (diagnostics s').

(** [tracked tokens w m]: when [m] returns [a], at least [w a] diagnostics
    have been reported meanwhile and none was lost; when it throws, none
    was lost and the error carries the token under the cursor. *)
Definition tracked (tokens : list Token) {A} (w : A -> nat) (m : M A) : Prop :=
  forall s,
    wlp m (fun a s' => since s s' (w a))
          (fun ex s' =>
             since s s' 0 /\ nth_error tokens (current s') = Some (token ex)) s.

(** [tracked] for a parser of expressions, which hold no null pointer. *)
Definition quiet (tokens : list Token) (m : M Expr) : Prop :=
  tracked tokens (fun _ => 0) m.

(** Whether the loop of [synchronize] stops with the cursor at [p]: the
    input ends there, or the token before is a [;], or the token there
    begins a statement. *)
Definition boundary (tokens : list Token) (p : nat) : bool :=
  at_end tokens p
  || TokenType_eqb (kind_at tokens (pred p)) TokenType.Semicolon
  || starts_statement (kind_at tokens p).

(** The grammar level of an operator kind: equality 3, comparison 4,
    term 5, factor 6 for the binary ones; [or] 1 and [and] 2. *)
Definition binary_rank (ty : TokenType.t) : option nat :=
  match ty with
  | TokenType.BangEqual | TokenType.EqualEqual => Some 3
  | TokenType.GreaterThanSign | TokenType.GreaterEqual
  | TokenType.LessThanSign | TokenType.LessEqual => Some 4
  | TokenType.Minus | TokenType.Plus => Some 5
  | TokenType.Slash | TokenType.Star => Some 6
  | _ => None
  end.

Definition logical_rank (ty : TokenType.t) : option nat :=
  match ty with
  | TokenType.Or => Some 1
  | TokenType.And => Some 2
  | _ => None
  end.

(** The grammar level whose function builds a node of this shape:
    assignment 0, ..., unary 7, primary 8. *)
Definition rank (e : Expr) : nat :=
  match e with
  | Assign _ _ => 0
  | Logical _ op _ => match logical_rank (type op) with Some k => k | None => 0 end
  | Binary _ op _ => match binary_rank (type op) with Some k => k | None => 0 end
  | Unary _ _ => 7
  | Literal _ | Variable_ _ | Grouping _ => 8
  end.

(** A tree that respects the grammar: an operator node has an operator
    of its own kind, a left child of its level or a tighter one and a
    right child of a tighter level (so the levels nest by precedence and
    a level associates to the left); the operand of a unary operator is
    of level unary or primary; names are identifier tokens.  Only a
    [Grouping] can hold a looser level inside a tighter one. *)
Fixpoint well_ranked (e : Expr) : bool :=
  match e with
  | Literal _ => true
  | Variable_ name => TokenType_eqb (type name) TokenType.Identifier
  | Assign name value =>
      TokenType_eqb (type name) TokenType.Identifier && well_ranked value
  | Grouping e => well_ranked e
  | Unary op operand =>
      (TokenType_eqb (type op) TokenType.Bang
       || TokenType_eqb (type op) TokenType.Minus)
      && Nat.leb 7 (rank operand) && well_ranked operand
  | Binary lhs op rhs =>
      match binary_rank (type op) with
      | Some k =>
          Nat.leb k (rank lhs) && Nat.ltb k (rank rhs)
          && well_ranked lhs && well_ranked rhs
      | None => false
      end
  | Logical lhs op rhs =>
      match logical_rank (type op) with
      | Some k =>
          Nat.leb k (rank lhs) && Nat.ltb k (rank rhs)
          && well_ranked lhs && well_ranked rhs
      | None => false
      end
  end.

(** The same for statements: every expression in them is [well_ranked]
    and a declared name is an identifier token. *)
Fixpoint well_formed (s : Stmt) : bool :=
  match s with
  | ExprStmt e | Print e => well_ranked e
  | VarDecl name initializer =>
      TokenType_eqb (type name) TokenType.Identifier
      && match initializer with Some e => well_ranked e | None => true end
  | Block l =>
      (fix all (l : list (option Stmt)) : bool :=
         match l with
         | [] => true
         | o :: r =>
             match o with Some x => well_formed x | None => true end && all r
         end) l
  | If condition thenBranch elseBranch =>
      well_ranked condition && well_formed thenBranch
      && match elseBranch with Some x => well_formed x | None => true end
  | While condition body => well_ranked condition && well_formed body
  end.

Definition well_formed_entry (o : option Stmt) : bool :=
  match o with Some x => well_formed x | None => true end.

Definition well_formed_list (l : list (option Stmt)) : bool :=
  forallb well_formed_entry l.

(** [ranked tokens k m]: the expressions [m] returns are [well_ranked]
    and of level [k] or tighter. *)
Definition ranked (k : nat) (m : M Expr) : Prop :=
  forall s,
    wlp m (fun e _ => well_ranked e = true /\ k <= rank e)
          (fun _ _ => Logic.True) s.

(** [shaped m]: the statements [m] returns are [well_formed]. *)
Definition shaped (m : M Stmt) : Prop :=
  forall s,
    wlp m (fun st _ => well_formed st = true) (fun _ _ => Logic.True) s.

(** The level at which a token kind continues an expression: [=] 0,
    [or] 1, [and] 2, then the binary operators. *)
Definition operator_level (ty : TokenType.t) : option nat :=
  match ty with
  | TokenType.Equal => Some 0
  | _ =>
      match logical_rank ty with
      | Some k => Some k
      | None => binary_rank ty
      end
  end.

(** Whether a token of this kind, met after an operand, continues the
    expression. *)
Definition continues_expression (ty : TokenType.t) : bool :=
  match operator_level ty with Some _ => true | None => false end.

(** The token under the cursor, if there is one, is no operator of
    level [k] or tighter. *)
Definition below (tokens : list Token) (k : nat) (s : State) : Prop :=
  forall t, nth_error tokens (current s) = Some t ->
    forall j, operator_level (type t) = Some j -> j < k.

(** [greedy tokens k m]: when [m] returns there is a token under the
    cursor, and it is no operator of level [k] or tighter. *)
Definition greedy (tokens : list Token) (k : nat) (m : M Expr) : Prop :=
  forall s,
    wlp m (fun _ s' =>
             (exists t, nth_error tokens (current s') = Some t) /\
             below tokens k s')
          (fun _ _ => Logic.True) s.

(** [agrees m1 m2]: wherever [m1] makes no access out of range, [m2]
    does what [m1] does. *)
Definition agrees {A} (m1 m2 : M A) : Prop :=
  forall s, (forall s', m1 s <> OutOfRange s') -> m2 s = m1 s.

(** * Properties of the value model *)

Module object_facts.
Import object.

(** IEEE comparison of a float with itself answers "equal" unless the
    float is a NaN. *)
Lemma SFeqb_refl (x : SpecFloat.spec_float) :
  x <> SpecFloat.S754_nan -> SpecFloat.SFeqb x x = true.
Proof.
  intros Hx. unfold SpecFloat.SFeqb.
  destruct x as [s | s | | s m e]; simpl.
  - reflexivity.
  - destruct s; reflexivity.
  - contradiction Hx; reflexivity.
  - rewrite Z.compare_refl.
    assert (Hm : Pos.compare_cont Eq m m = Eq) by apply Pos.compare_refl.
    rewrite Hm. destruct s; reflexivity.
Qed.

Lemma float_eqb_refl (d : float) :
  PrimFloat.classify d <> FloatClass.NaN -> PrimFloat.eqb d d = true.
Proof.
  intros Hc. rewrite FloatAxioms.eqb_spec. apply SFeqb_refl.
  intros Hn. apply Hc. rewrite FloatAxioms.classify_spec, Hn. reflexivity.
Qed.

Lemma variant_eq_refl (v : Object) :
  is_NaN v = false -> variant_eq v v = true.
Proof.
  destruct v as [s | d | b | | p]; simpl; intros H.
  - apply String.eqb_refl.
  - apply float_eqb_refl. intros Hc. rewrite Hc in H. discriminate.
  - destruct b; reflexivity.
  - reflexivity.
  - apply Pos.eqb_refl.
Qed.

(** The earlier visitor forms agree with the current functions on every
    alternative they name. *)
Lemma isTruthy_v0_agrees (v : Object) :
  index v <> 4 -> isTruthy_v0 v = isTruthy v.
Proof. destruct v; simpl; intros H; try reflexivity. contradiction H; reflexivity. Qed.

Lemma obj2str_v0_agrees (to_string : float -> string) (v : Object) :
  index v <> 4 -> obj2str_v0 to_string v = obj2str to_string v.
Proof. destruct v; simpl; intros H; try reflexivity. contradiction H; reflexivity. Qed.

(** C6. For every value, [isTruthy] returns (it never throws), and it
    returns [false] exactly for [Null] and for [Boolean false]; every
    [String], [Number] and callable is truthy. *)
Theorem isTruthy_false_iff_nil_or_false (v : Object) :
  (exists b, isTruthy v = Returns b) /\
  (isTruthy v = Returns false <-> (v = Null \/ v = Boolean false)) /\
  (forall s, isTruthy (String s) = Returns true) /\
  (forall d, isTruthy (Number d) = Returns true) /\
  (forall p, isTruthy (CallPtr p) = Returns true).
Proof.
  split; [| split; [| repeat split]].
  - destruct v as [s | d | b | | p]; cbv; eauto.
  - destruct v as [s | d | [|] | | p]; cbv; split; intros H;
      try discriminate; auto;
      destruct H as [H | H]; discriminate.
Qed.

(** C7, as the code has it. [isEqual] is reflexive on every value except
    a [Number] holding a NaN; two [Null]s are equal, and [Null] equals no
    other value. *)
Theorem isEqual_refl_except_NaN (v : Object) :
  is_NaN v = false ->
  isEqual v v = true /\
  isEqual Null Null = true /\
  (forall x, x <> Null -> isEqual Null x = false).
Proof.
  intros H. split; [| split].
  - unfold isEqual. destruct (holds_Null v) eqn:E; simpl.
    + reflexivity.
    + apply variant_eq_refl, H.
  - reflexivity.
  - intros x Hx. destruct x; try reflexivity. contradiction Hx; reflexivity.
Qed.

Lemma isEqual_refl_except_NaN_witness :
  is_NaN (Number 1.5%float) = false /\
  isEqual (Number 1.5%float) (Number 1.5%float) = true.
Proof.
  split; [vm_compute; reflexivity |].
  apply (isEqual_refl_except_NaN (Number 1.5%float)). vm_compute; reflexivity.
Defined.

(** C7 fails as stated: a NaN is a [Number] payload, and [isEqual] does
    not find it equal to itself. *)
Lemma isEqual_NaN_not_reflexive :
  is_NaN (Number PrimFloat.nan) = true /\
  isEqual (Number PrimFloat.nan) (Number PrimFloat.nan) = false.
Proof.
  split; vm_compute; reflexivity.
Qed.

(** C8. Values holding different alternatives are never equal. *)
Theorem isEqual_across_variants (a b : Object) :
  index a <> index b -> isEqual a b = false.
Proof.
  destruct a, b; simpl; intros H; try reflexivity; contradiction H; reflexivity.
Qed.

Lemma isEqual_across_variants_witness :
  index (Number 0%float) <> index (Boolean false) /\
  isEqual (Number 0%float) (Boolean false) = false /\
  isEqual (Number 1%float) (String "1") = false.
Proof.
  split; [simpl; lia |].
  split; apply isEqual_across_variants; simpl; lia.
Defined.

(** C9. [obj2str] returns for every value, never reaching the throwing
    branch: a [String] gives its contents, a [Boolean] "true" or "false",
    [Null] "nil", a callable "callable", and a [Number] what
    [std::to_string] gives. *)
Theorem obj2str_dispatch (to_string : float -> string) (v : Object) :
  obj2str to_string v <> UnknownObjectType /\
  (forall s, obj2str to_string (String s) = Returns s) /\
  obj2str to_string (Boolean true) = Returns "true" /\
  obj2str to_string (Boolean false) = Returns "false" /\
  obj2str to_string Null = Returns "nil" /\
  (forall p, obj2str to_string (CallPtr p) = Returns "callable") /\
  (forall d, obj2str to_string (Number d) = Returns (to_string d)).
Proof.
  split; [destruct v; simpl; discriminate | repeat split].
Qed.

End object_facts.

(** * Reasoning about runs of the parser *)

Local Open Scope list_scope.

Lemma wp_ret {A} (a : A) Q E s : Q a s -> wp (ret a) Q E s.
Proof. intros H; exact H. Qed.

Lemma wp_throw {A} ex (Q : A -> State -> Prop) E s : E ex s -> wp (throw ex) Q E s.
Proof. intros H; exact H. Qed.

Lemma wp_bind {A B} (m : M A) (k : A -> M B) Q E s :
  wp m (fun a s' => wp (k a) Q E s') E s -> wp (bind m k) Q E s.
Proof.
  unfold wp, bind. destruct (m s); auto.
Qed.

Lemma wp_conseq {A} (m : M A) (Q Q' : A -> State -> Prop)
    (E E' : RuntimeError -> State -> Prop) s :
  wp m Q E s ->
  (forall a s', Q a s' -> Q' a s') ->
  (forall ex s', E ex s' -> E' ex s') ->
  wp m Q' E' s.
Proof.
  unfold wp. destruct (m s); auto.
Qed.

Lemma wp_try_catch {A} (body : M A) handler Q E s :
  wp body Q (fun ex s' => wp (handler ex) Q E s') s ->
  wp (try_catch body handler) Q E s.
Proof.
  unfold wp, try_catch. destruct (body s); auto.
Qed.

Lemma wp_error ln msg Q E s :
  Q tt (mkState (current s) (diagnostics s ++ [(ln, msg)])) ->
  wp (error ln msg) Q E s.
Proof. intros H; exact H. Qed.

Section Cursor.

Variable tokens : list Token.

(** The token sequence ends with the end-of-input token, at index [N]. *)
Variable N : nat.
Hypothesis length_tokens : List.length tokens = S N.
Hypothesis sentinel : at_end tokens N = true.

Lemma inb_token s : inb N s -> exists t, nth_error tokens (current s) = Some t.
Proof.
  intros H. destruct (nth_error tokens (current s)) eqn:E; eauto.
  apply nth_error_None in E. unfold inb in H. lia.
Qed.

Lemma not_at_end_lt c : c <= N -> at_end tokens c = false -> c < N.
Proof.
  intros Hc He. destruct (Nat.eq_dec c N) as [-> | Hn]; [congruence | lia].
Qed.

Lemma kind_is_not_at_end ty c : kind_is tokens ty c = true -> at_end tokens c = false.
Proof.
  unfold kind_is, at_end. destruct (nth_error tokens c); [| discriminate].
  destruct (TokenType_eqb (type t) TokenType.EndOfFile); simpl; congruence.
Qed.

Lemma peek_eq s t :
  nth_error tokens (current s) = Some t -> peek tokens s = Ok t s.
Proof. unfold peek. intros ->. reflexivity. Qed.

Lemma isAtEnd_eq s :
  inb N s -> isAtEnd tokens s = Ok (at_end tokens (current s)) s.
Proof.
  intros H. destruct (inb_token s H) as [t Ht].
  unfold isAtEnd, bind, at_end. rewrite (peek_eq s t Ht), Ht. reflexivity.
Qed.

Lemma previous_next s t :
  nth_error tokens (current s) = Some t ->
  previous tokens (next s) = Ok t (next s).
Proof. unfold previous. simpl. intros ->. reflexivity. Qed.

Lemma advance_eq s t :
  nth_error tokens (current s) = Some t ->
  at_end tokens (current s) = false ->
  advance tokens s = Ok t (next s).
Proof.
  intros Ht He.
  assert (Hp : peek tokens s = Ok t s) by (apply peek_eq; exact Ht).
  unfold advance, isAtEnd, bind. rewrite Hp.
  unfold at_end in He. rewrite Ht in He. unfold ret. rewrite He.
  unfold increment. fold (next s). apply previous_next, Ht.
Qed.

Lemma check_eq ty s :
  inb N s -> check tokens ty s = Ok (kind_is tokens ty (current s)) s.
Proof.
  intros H. destruct (inb_token s H) as [t Ht].
  unfold check, bind. rewrite (isAtEnd_eq s H).
  unfold at_end, kind_is. rewrite Ht.
  destruct (TokenType_eqb (type t) TokenType.EndOfFile); simpl.
  - reflexivity.
  - rewrite (peek_eq s t Ht). reflexivity.
Qed.

Lemma consume_eq ty msg s t :
  nth_error tokens (current s) = Some t ->
  inb N s ->
  consume tokens ty msg s =
    if kind_is tokens ty (current s) then Ok t (next s)
    else Throw (mkRuntimeError t msg) s.
Proof.
  intros Ht H. unfold consume, bind. rewrite (check_eq ty s H).
  destruct (kind_is tokens ty (current s)) eqn:K.
  - apply advance_eq; [exact Ht | eapply kind_is_not_at_end; exact K].
  - rewrite (peek_eq s t Ht). reflexivity.
Qed.

Lemma match_eq types s :
  inb N s ->
  match_ tokens types s =
    if existsb (fun ty => kind_is tokens ty (current s)) types
    then Ok true (next s) else Ok false s.
Proof.
  intros H. destruct (inb_token s H) as [t Ht].
  induction types as [| ty rest IH]; simpl.
  - reflexivity.
  - unfold bind at 1. rewrite (check_eq ty s H).
    destruct (kind_is tokens ty (current s)) eqn:K; simpl.
    + unfold bind.
      rewrite (advance_eq s t Ht (kind_is_not_at_end _ _ K)). reflexivity.
    + exact IH.
Qed.


(** Rules for the cursor primitives. *)

Lemma wp_peek Q E s :
  inb N s -> (forall t, nth_error tokens (current s) = Some t -> Q t s) ->
  wp (peek tokens) Q E s.
Proof.
  intros H HQ. destruct (inb_token s H) as [t Ht].
  unfold wp. rewrite (peek_eq s t Ht). auto.
Qed.

Lemma wp_previous Q E s :
  inb N s -> 1 <= current s -> (forall t, Q t s) ->
  wp (previous tokens) Q E s.
Proof.
  intros H H1 HQ. unfold wp, previous.
  destruct (current s) as [| c] eqn:Ec; [lia |].
  destruct (nth_error tokens c) eqn:Et; [apply HQ |].
  apply nth_error_None in Et. unfold inb in H. lia.
Qed.

Lemma wp_isAtEnd Q E s :
  inb N s -> Q (at_end tokens (current s)) s -> wp (isAtEnd tokens) Q E s.
Proof.
  intros H HQ. unfold wp. rewrite (isAtEnd_eq s H). exact HQ.
Qed.

Lemma wp_check ty Q E s :
  inb N s ->
  (at_end tokens (current s) = false -> Q true s) -> Q false s ->
  wp (check tokens ty) Q E s.
Proof.
  intros H Ht Hf. unfold wp. rewrite (check_eq ty s H).
  destruct (kind_is tokens ty (current s)) eqn:K; [| exact Hf].
  apply Ht. eapply kind_is_not_at_end; exact K.
Qed.

Lemma existsb_kind_is_not_at_end types c :
  existsb (fun ty => kind_is tokens ty c) types = true ->
  at_end tokens c = false.
Proof.
  intros H. apply existsb_exists in H. destruct H as [ty [_ K]].
  eapply kind_is_not_at_end; exact K.
Qed.

Lemma wp_match types Q E s :
  inb N s ->
  (at_end tokens (current s) = false -> Q true (next s)) -> Q false s ->
  wp (match_ tokens types) Q E s.
Proof.
  intros H Ht Hf. unfold wp. rewrite (match_eq types s H).
  destruct (existsb _ types) eqn:K; [| exact Hf].
  apply Ht. eapply existsb_kind_is_not_at_end; exact K.
Qed.

Lemma wp_consume ty msg Q E s :
  inb N s ->
  (at_end tokens (current s) = false -> forall t, Q t (next s)) ->
  (forall ex, E ex s) ->
  wp (consume tokens ty msg) Q E s.
Proof.
  intros H Ht Hf. destruct (inb_token s H) as [t Hn].
  unfold wp. rewrite (consume_eq ty msg s t Hn H).
  destruct (kind_is tokens ty (current s)) eqn:K; [| apply Hf].
  apply Ht. eapply kind_is_not_at_end; exact K.
Qed.

Lemma wp_advance Q E s :
  inb N s ->
  at_end tokens (current s) = false \/ 1 <= current s ->
  (at_end tokens (current s) = false -> forall t, Q t (next s)) ->
  (at_end tokens (current s) = true -> forall t, Q t s) ->
  wp (advance tokens) Q E s.
Proof.
  intros H Hor Hf Ht. destruct (inb_token s H) as [t Hn].
  destruct (at_end tokens (current s)) eqn:He.
  - destruct Hor as [Hor | Hor]; [discriminate |].
    unfold advance. apply wp_bind. apply wp_isAtEnd; [exact H |].
    rewrite He. apply wp_bind, wp_ret. apply wp_previous; auto.
  - unfold wp. rewrite (advance_eq s t Hn He). auto.
Qed.

Lemma next_inb s : inb N s -> at_end tokens (current s) = false -> inb N (next s).
Proof.
  intros H He. pose proof (not_at_end_lt _ H He). unfold inb, next in *; simpl; lia.
Qed.


Lemma at_end_ne c : at_end tokens c = false -> c <> N.
Proof. intros He ->. congruence. Qed.

(** Side conditions are arithmetic on cursors. *)
Ltac cursor :=
  repeat match goal with
         | He : at_end tokens _ = false |- _ => apply at_end_ne in He
         | H : _ /\ _ |- _ => destruct H
         end;
  unfold inb, fits, next in *; cbn [current diagnostics] in *;
  repeat split; lia.

(** One step of a run. *)
Ltac wp_step :=
  cbv beta iota zeta; cbn [negb andb];
  lazymatch goal with
  | |- wp (bind _ _) _ _ _ => apply wp_bind
  | |- wp (ret _) _ _ _ => apply wp_ret
  | |- wp (throw _) _ _ _ => apply wp_throw
  | |- wp (error _ _) _ _ _ => apply wp_error
  | |- wp (match_ _ _) _ _ _ => apply wp_match; [cursor | intros ? | ]
  | |- wp (check _ _) _ _ _ => apply wp_check; [cursor | intros ? | ]
  | |- wp (consume _ _ _) _ _ _ => apply wp_consume; [cursor | intros ? ? | intros ?]
  | |- wp (previous _) _ _ _ => apply wp_previous; [cursor | cursor | intros ?]
  | |- wp (peek _) _ _ _ => apply wp_peek; [cursor | intros ? ?]
  | |- wp (isAtEnd _) _ _ _ => apply wp_isAtEnd; [cursor | ]
  end.

(** A call of a parser already known to be [monotone] or [advancing]. *)
Ltac wp_call H :=
  cbv beta iota;
  eapply wp_conseq;
  [ apply H; cursor
  | cbv beta; intros ? ? ?
  | cbv beta; intros ? ? ?; cursor ].

Lemma advancing_le n k {A} (m : M A) :
  advancing N n m -> k <= n -> advancing N k m.
Proof.
  intros H Hk s Hs Hf. apply H; [exact Hs | unfold fits in *; lia].
Qed.

(** *** Expressions consume tokens and stay in bounds *)

Section LevelsSafe.

Variable expr_rec : M Expr.
Variable n : nat.
Hypothesis expr_rec_advancing : advancing N n expr_rec.

Lemma primary_advancing : advancing N (S n) (primary tokens expr_rec).
Proof.
  intros s Hs Hf. unfold primary.
  wp_step. wp_step. { wp_step. cursor. }
  wp_step. wp_step. { wp_step. cursor. }
  wp_step. wp_step. { wp_step. cursor. }
  wp_step. wp_step. { wp_step. wp_step. wp_step. cursor. }
  wp_step. wp_step. { wp_step. wp_step. wp_step. cursor. }
  wp_step. wp_step.
  - wp_step. wp_call expr_rec_advancing.
    wp_step. wp_step; [wp_step; cursor | cursor].
  - wp_step. wp_step. wp_step. cursor.
Qed.

Lemma unary_advancing k :
  k <= S n -> advancing N k (unary tokens expr_rec k).
Proof.
  induction k as [| k IH]; intros Hk s Hs Hf.
  - exfalso. cursor.
  - cbn [unary]. wp_step. wp_step.
    + wp_step. wp_step. wp_step. wp_call IH. wp_step. cursor.
    + wp_call (advancing_le (S n) (S k) _ primary_advancing Hk).
      cursor.
Qed.

(** The loop of a binary level, whose body starts just after the
    operator it matched. *)
Lemma while_match_monotone m types body :
  (forall e s, inb N s -> 1 <= current s -> fits N m s ->
     wp (body e) (fun _ s' => current s <= current s' /\ inb N s')
        (fun _ s' => current s <= current s' /\ inb N s') s) ->
  forall k, k <= m -> forall e,
    monotone N k (while_match tokens k types body e).
Proof.
  intros Hbody. induction k as [| k IH]; intros Hk e s Hs Hf.
  - exfalso. cursor.
  - cbn [while_match]. wp_step. wp_step.
    + wp_step. eapply wp_conseq.
      * apply Hbody; cursor.
      * cbv beta. intros e' s1 H1. eapply wp_conseq.
        -- apply IH; cursor.
        -- cbv beta. intros; cursor.
        -- cbv beta. intros; cursor.
      * cbv beta. intros; cursor.
    + wp_step. cursor.
Qed.

(** A binary level: an operand, then the loop over operator and operand. *)
Lemma level_advancing k types (sub : M Expr) (mk : Expr -> Token -> Expr -> Expr) :
  advancing N k sub ->
  advancing N k
    (bind sub (fun expr =>
       while_match tokens k types
         (fun expr =>
            bind (previous tokens) (fun op =>
            bind sub (fun right => ret (mk expr op right))))
         expr)).
Proof.
  intros Hsub s Hs Hf. wp_step. wp_call Hsub.
  eapply wp_conseq.
  - eapply (while_match_monotone k); [| apply Nat.le_refl | cursor | cursor].
    intros e s1 Hs1 H1 Hf1. wp_step. wp_step. wp_step. wp_call Hsub.
    wp_step. cursor.
  - cbv beta. intros; cursor.
  - cbv beta. intros; cursor.
Qed.

Lemma factor_advancing k :
  k <= S n -> advancing N k (factor tokens expr_rec k).
Proof. intros Hk. apply level_advancing, unary_advancing, Hk. Qed.

Lemma term_advancing k :
  k <= S n -> advancing N k (term tokens expr_rec k).
Proof. intros Hk. apply level_advancing, factor_advancing, Hk. Qed.

Lemma comparison_advancing k :
  k <= S n -> advancing N k (comparison tokens expr_rec k).
Proof. intros Hk. apply level_advancing, term_advancing, Hk. Qed.

Lemma equality_advancing k :
  k <= S n -> advancing N k (equality tokens expr_rec k).
Proof. intros Hk. apply level_advancing, comparison_advancing, Hk. Qed.

Lemma logicAnd_advancing k :
  k <= S n -> advancing N k (logicAnd tokens expr_rec k).
Proof. intros Hk. apply level_advancing, equality_advancing, Hk. Qed.

Lemma logicOr_advancing k :
  k <= S n -> advancing N k (logicOr tokens expr_rec k).
Proof. intros Hk. apply level_advancing, logicAnd_advancing, Hk. Qed.

Lemma assignment_advancing k :
  k <= S n -> advancing N k (assignment tokens expr_rec k).
Proof.
  induction k as [| k IH]; intros Hk s Hs Hf.
  - exfalso. cursor.
  - cbn [assignment]. wp_step. wp_call (logicOr_advancing (S k) Hk).
    wp_step. wp_step.
    + wp_step. wp_step. wp_step. wp_call IH.
      destruct a; repeat wp_step; cursor.
    + wp_step. cursor.
Qed.

End LevelsSafe.

Lemma expression_advancing n : advancing N n (expression tokens n).
Proof.
  induction n as [| n IH].
  - intros s Hs Hf. exfalso. cursor.
  - cbn [expression]. apply assignment_advancing with (n := n); [exact IH | apply Nat.le_refl].
Qed.

(** *** Panic-mode recovery stays in bounds *)

Lemma synchronize_loop_monotone k s :
  inb N s -> fits N k s -> 1 <= current s ->
  wp (synchronize_loop tokens k)
     (fun _ s' => current s <= current s' /\ inb N s')
     (fun _ _ => Logic.False) s.
Proof.
  revert s. induction k as [| k IH]; intros s Hs Hf H1.
  - exfalso. cursor.
  - cbn [synchronize_loop]. wp_step. wp_step.
    destruct (at_end tokens (current s)) eqn:He.
    + wp_step. cursor.
    + wp_step. wp_step.
      destruct (TokenType_eqb (type t) TokenType.Semicolon).
      * wp_step. cursor.
      * wp_step. wp_step.
        destruct (starts_statement (type t0)).
        -- wp_step. cursor.
        -- wp_step. apply wp_advance; [cursor | left; exact He | | congruence].
           intros _ _. eapply wp_conseq.
           ++ apply IH; cursor.
           ++ cbv beta. intros; cursor.
           ++ cbv beta. intros; assumption.
Qed.

Lemma synchronize_monotone k s :
  inb N s -> fits N k s ->
  at_end tokens (current s) = false \/ 1 <= current s ->
  wp (synchronize tokens k)
     (fun _ s' =>
        current s <= current s' /\ inb N s' /\
        (at_end tokens (current s) = false -> current s < current s'))
     (fun _ _ => Logic.False) s.
Proof.
  intros Hs Hf Hor. unfold synchronize. wp_step.
  apply wp_advance; [exact Hs | exact Hor | |].
  - intros He _. eapply wp_conseq.
    + apply synchronize_loop_monotone; cursor.
    + cbv beta. intros; cursor.
    + cbv beta. intros; assumption.
  - intros He _. eapply wp_conseq.
    + apply synchronize_loop_monotone; [exact Hs | exact Hf |].
      destruct Hor; [congruence | assumption].
    + cbv beta. intros ? ? [? ?]. repeat split; try assumption. congruence.
    + cbv beta. intros; assumption.
Qed.

(** *** Statements consume tokens and stay in bounds *)

Lemma varDeclaration_advancing k : advancing N k (varDeclaration tokens k).
Proof.
  intros s Hs Hf. unfold varDeclaration.
  wp_step. wp_step; [| cursor].
  wp_step. wp_step.
  - wp_step. wp_step. wp_call (expression_advancing k).
    wp_step. wp_step. wp_step; [wp_step; cursor | cursor].
  - wp_step. wp_step. wp_step. wp_step; [wp_step; cursor | cursor].
Qed.

Lemma expressionStatement_advancing k :
  advancing N k (expressionStatement tokens k).
Proof.
  intros s Hs Hf. unfold expressionStatement.
  wp_step. wp_call (expression_advancing k).
  wp_step. wp_step; [wp_step; cursor | cursor].
Qed.

Lemma printStatement_advancing k :
  advancing N k (printStatement tokens k).
Proof.
  intros s Hs Hf. unfold printStatement.
  wp_step. wp_call (expression_advancing k).
  wp_step. wp_step; [wp_step; cursor | cursor].
Qed.

(** Run to the end of straight-line code, calling [call] at the parsers
    it knows. *)
Ltac wp_auto call :=
  repeat first [ wp_step | solve [cursor] | call ].

Section NestedSafe.

Variable stmt_rec : M Stmt.
Variable n : nat.
Hypothesis stmt_rec_advancing : advancing N n stmt_rec.

Lemma forStatement_advancing m :
  n <= m -> advancing N n (forStatement tokens stmt_rec m).
Proof.
  intros Hm s Hs Hf. unfold forStatement.
  wp_auto ltac:(first [ wp_call (expression_advancing m)
                      | wp_call (varDeclaration_advancing m)
                      | wp_call (expressionStatement_advancing m)
                      | wp_call stmt_rec_advancing ]).
Qed.

Lemma ifStatement_advancing m :
  n <= m -> advancing N n (ifStatement tokens stmt_rec m).
Proof.
  intros Hm s Hs Hf. unfold ifStatement.
  wp_auto ltac:(first [ wp_call (expression_advancing m)
                      | wp_call stmt_rec_advancing ]).
Qed.

Lemma whileStatement_advancing m :
  n <= m -> advancing N n (whileStatement tokens stmt_rec m).
Proof.
  intros Hm s Hs Hf. unfold whileStatement.
  wp_auto ltac:(first [ wp_call (expression_advancing m)
                      | wp_call stmt_rec_advancing ]).
Qed.

Lemma declaration_body_advancing m :
  n <= m -> advancing N n (declaration_body tokens stmt_rec m).
Proof.
  intros Hm s Hs Hf. unfold declaration_body.
  wp_auto ltac:(first [ wp_call (varDeclaration_advancing m)
                      | wp_call stmt_rec_advancing ]).
Qed.

Lemma declaration_of_recovering m :
  n <= m -> recovering tokens N n (declaration_of tokens stmt_rec m).
Proof.
  intros Hm s Hs Hf He. unfold declaration_of.
  apply wp_try_catch. wp_step.
  eapply wp_conseq.
  - apply (declaration_body_advancing m Hm); assumption.
  - cbv beta. intros a s1 H1. wp_step. cursor.
  - cbv beta. intros ex s1 H1. wp_step. wp_step. wp_step.
    eapply wp_conseq.
    + apply synchronize_monotone; [cursor | cursor |].
      cbn [current].
      destruct (Nat.eq_dec (current s1) (current s)) as [Heq | Hne].
      * left. rewrite Heq. exact He.
      * right. cursor.
    + cbv beta. cbn [current]. intros _ s2 (H2 & H3 & H4). wp_step.
      destruct (Nat.eq_dec (current s1) (current s)) as [Heq | Hne].
      * rewrite Heq in H4. specialize (H4 He). cursor.
      * cursor.
    + cbv beta. intros; assumption.
Qed.

End NestedSafe.

Section BlockSafe.

Variable decl_rec : M (option Stmt).
Variable n : nat.
Hypothesis decl_rec_recovering : recovering tokens N n decl_rec.

Lemma block_loop_monotone k statements s :
  inb N s -> fits N k s -> fits N n s ->
  wp (block_loop tokens decl_rec k statements)
     (fun _ s' => current s <= current s' /\ inb N s')
     (fun _ _ => Logic.False) s.
Proof.
  revert statements s. induction k as [| k IH]; intros statements s Hs Hk Hn.
  - exfalso. cursor.
  - cbn [block_loop]. wp_step. wp_step.
    + wp_auto ltac:(idtac).
    + wp_step. wp_step.
      destruct (at_end tokens (current s)) eqn:He; wp_step.
      * cursor.
      * eapply wp_conseq.
        -- apply decl_rec_recovering; assumption.
        -- cbv beta. intros d s1 H1. eapply wp_conseq.
           ++ apply IH; cursor.
           ++ cbv beta. intros; cursor.
           ++ cbv beta. intros; assumption.
        -- cbv beta. intros; assumption.
Qed.

Lemma block_monotone m : n <= m -> monotone N n (block tokens decl_rec m).
Proof.
  intros Hm s Hs Hf. unfold block. wp_step.
  eapply wp_conseq.
  - apply (block_loop_monotone m); cursor.
  - cbv beta. intros l s1 H1. wp_step. wp_step; [wp_step; cursor | cursor].
  - cbv beta. intros ex s1 [].
Qed.

End BlockSafe.

Lemma statement_advancing n : advancing N n (statement tokens n).
Proof.
  induction n as [| n IH]; intros s Hs Hf.
  - exfalso. cursor.
  - cbn [statement].
    wp_auto ltac:(first
      [ wp_call (forStatement_advancing _ n IH (S n) (Nat.le_succ_diag_r n))
      | wp_call (ifStatement_advancing _ n IH (S n) (Nat.le_succ_diag_r n))
      | wp_call (whileStatement_advancing _ n IH (S n) (Nat.le_succ_diag_r n))
      | wp_call (printStatement_advancing (S n))
      | wp_call (expressionStatement_advancing (S n))
      | wp_call (block_monotone _ n
                   (declaration_of_recovering _ n IH (S n) (Nat.le_succ_diag_r n))
                   (S n) (Nat.le_succ_diag_r n)) ]).
Qed.

Lemma declaration_recovering n : recovering tokens N n (declaration tokens n).
Proof.
  unfold declaration.
  apply declaration_of_recovering; [apply statement_advancing | apply Nat.le_refl].
Qed.

Lemma parse_loop_bounded k m statements s :
  inb N s -> fits N k s -> fits N m s ->
  wp (parse_loop tokens k m statements)
     (fun _ s' => current s <= current s' /\ inb N s')
     (fun _ _ => Logic.False) s.
Proof.
  revert statements s. induction k as [| k IH]; intros statements s Hs Hk Hm.
  - exfalso. cursor.
  - cbn [parse_loop]. wp_step. wp_step.
    destruct (at_end tokens (current s)) eqn:He; wp_step.
    + cursor.
    + apply wp_try_catch. wp_step. eapply wp_conseq.
      * apply declaration_recovering; assumption.
      * cbv beta. intros d s1 H1. wp_step. eapply wp_conseq.
        -- apply IH; cursor.
        -- cbv beta. intros; cursor.
        -- cbv beta. intros; assumption.
      * cbv beta. intros ex s1 [].
Qed.

Lemma parse_bounded fuel :
  S N <= fuel ->
  wp (parse tokens fuel) (fun _ s' => inb N s') (fun _ _ => Logic.False) initial.
Proof.
  intros Hfuel. unfold parse. eapply wp_conseq.
  - apply parse_loop_bounded; unfold inb, fits, initial; cbn [current]; lia.
  - cbv beta. intros ? ? [_ H]. exact H.
  - cbv beta. intros; assumption.
Qed.


(** *** Where panic mode stops *)

Lemma synchronize_loop_skips j k s :
  current s <= S j -> 1 <= current s -> S j <= N ->
  S (S j) - current s <= k ->
  TokenType_eqb (kind_at tokens j) TokenType.Semicolon = true ->
  (forall p, current s <= p <= j -> at_end tokens p = false) ->
  (forall p, pred (current s) <= p < j ->
     TokenType_eqb (kind_at tokens p) TokenType.Semicolon = false) ->
  (forall p, current s <= p <= j -> starts_statement (kind_at tokens p) = false) ->
  synchronize_loop tokens k s = Ok tt (mkState (S j) (diagnostics s)).
Proof.
  revert s. induction k as [| k IH]; intros s Hle H1 HjN Hk Hsemi Hend Hnos Hnost.
  - lia.
  - assert (Hs : inb N s) by (unfold inb; lia).
    cbn [synchronize_loop]. unfold bind at 1. rewrite (isAtEnd_eq s Hs).
    destruct (Nat.eq_dec (current s) (S j)) as [Heq | Hne].
    + (* at the token after the [;] *)
      destruct (at_end tokens (current s)).
      * unfold ret. destruct s as [c d]. simpl in *. subst c. reflexivity.
      * unfold bind at 1, previous at 1. rewrite Heq.
        destruct (nth_error tokens j) as [p |] eqn:Ep.
        2:{ apply nth_error_None in Ep. lia. }
        assert (Hp : type p = kind_at tokens j)
          by (unfold kind_at; rewrite Ep; reflexivity).
        rewrite Hp, Hsemi. unfold ret.
        destruct s as [c d]. simpl in *. subst c. reflexivity.
    + rewrite (Hend (current s)) by lia.
      destruct (current s) as [| c] eqn:Ec; [lia |].
      unfold bind at 1, previous at 1. rewrite Ec.
      destruct (nth_error tokens c) as [p |] eqn:Ep.
      2:{ apply nth_error_None in Ep. lia. }
      assert (Hp : type p = kind_at tokens c)
        by (unfold kind_at; rewrite Ep; reflexivity).
      rewrite Hp, (Hnos c) by (simpl; lia).
      destruct (inb_token s Hs) as [t Ht].
      unfold bind at 1. rewrite (peek_eq s t Ht).
      assert (Hk' : type t = kind_at tokens (S c))
        by (unfold kind_at; rewrite <- Ec, Ht; reflexivity).
      rewrite Hk', (Hnost (S c)) by lia.
      unfold bind at 1. rewrite (advance_eq s t Ht) by (rewrite Ec; apply Hend; lia).
      rewrite (IH (next s)); unfold next; rewrite ?Ec; cbn [current diagnostics];
        try reflexivity; try lia; try assumption.
      * intros q Hq. apply Hend. lia.
      * intros q Hq. apply Hnos. simpl. lia.
      * intros q Hq. apply Hnost. lia.
Qed.

Lemma skips_to_spec c j :
  skips_to tokens c j = true ->
  c <= j /\
  TokenType_eqb (kind_at tokens j) TokenType.Semicolon = true /\
  (forall p, c <= p <= j -> at_end tokens p = false) /\
  (forall p, c <= p < j ->
     TokenType_eqb (kind_at tokens p) TokenType.Semicolon = false) /\
  (forall p, S c <= p <= j -> starts_statement (kind_at tokens p) = false).
Proof.
  unfold skips_to. rewrite !andb_true_iff, !forallb_forall, Nat.leb_le.
  intros ((((Hle & Hsemi) & Hend) & Hnos) & Hnost).
  repeat split; try assumption.
  - intros p Hp. apply negb_true_iff, Hend, in_seq. lia.
  - intros p Hp. apply negb_true_iff, Hnos, in_seq. lia.
  - intros p Hp. apply negb_true_iff, Hnost, in_seq. lia.
Qed.

(** After an error raised at [c], [synchronize] leaves the cursor just
    after the [;] that closes the broken statement. *)
Lemma synchronize_skips c j k s :
  skips_to tokens c j = true -> current s = c -> fits N k s ->
  synchronize tokens k s = Ok tt (mkState (S j) (diagnostics s)).
Proof.
  intros Hsk Hc Hk. apply skips_to_spec in Hsk.
  destruct Hsk as (Hle & Hsemi & Hend & Hnos & Hnost).
  assert (HjN : S j <= N).
  { assert (Hj : at_end tokens j = false) by (apply Hend; lia).
    assert (j < S N).
    { rewrite <- length_tokens. apply nth_error_Some.
      unfold at_end in Hj. destruct (nth_error tokens j); congruence. }
    apply at_end_ne in Hj. lia. }
  assert (Hs : inb N s) by (unfold inb; lia).
  destruct (inb_token s Hs) as [t Ht].
  unfold synchronize, bind.
  rewrite (advance_eq s t Ht) by (rewrite Hc; apply Hend; lia).
  rewrite (synchronize_loop_skips j); unfold next; cbn [current diagnostics];
    try reflexivity; try lia; try assumption.
  - unfold fits in Hk. lia.
  - intros p Hp. apply Hend. lia.
  - intros p Hp. apply Hnos. lia.
  - intros p Hp. apply Hnost. lia.
Qed.

(** *** The top-level loop over well-formed and malformed statements *)

Lemma toplevel_null_entries fuel s l ds s' :
  toplevel tokens fuel s l ds s' -> List.length ds = null_entries l.
Proof.
  induction 1; unfold null_entries in *; simpl; auto.
Qed.

Lemma toplevel_parse_loop fuel s l ds s' :
  toplevel tokens fuel s l ds s' ->
  inb N s -> fits N fuel s ->
  forall k acc, fits N k s ->
    parse_loop tokens k fuel acc s = Ok (acc ++ l)%list s' /\
    diagnostics s' = diagnostics s ++ ds.
Proof.
  induction 1 as [s He | s stmt s1 l ds s' He Hbody Hd Hrest IH
                 | s ex s1 j l ds s' He Hbody Hd Hsk Hrest IH];
    intros Hs Hfuel k acc Hk.
  - destruct k as [| k]; [exfalso; cursor |].
    cbn [parse_loop]. unfold bind. rewrite (isAtEnd_eq s Hs), He.
    rewrite !app_nil_r. split; reflexivity.
  - destruct k as [| k]; [exfalso; cursor |].
    pose proof (declaration_body_advancing _ fuel (statement_advancing fuel)
                  fuel (Nat.le_refl _) s Hs Hfuel) as Hwp.
    unfold wp in Hwp. rewrite Hbody in Hwp. destruct Hwp as [Hlt Hs1].
    cbn [parse_loop]. unfold bind at 1. rewrite (isAtEnd_eq s Hs), He.
    unfold bind at 1, try_catch at 1, bind at 1, declaration, declaration_of,
      try_catch at 1, bind at 1.
    rewrite Hbody. unfold ret at 1. unfold ret at 1.
    destruct (IH Hs1 ltac:(cursor) k (acc ++ [Some stmt])%list ltac:(cursor)) as [IH1 IH2].
    rewrite IH1, <- app_assoc. split; [reflexivity | congruence].
  - destruct k as [| k]; [exfalso; cursor |].
    pose proof (declaration_body_advancing _ fuel (statement_advancing fuel)
                  fuel (Nat.le_refl _) s Hs Hfuel) as Hwp.
    unfold wp in Hwp. rewrite Hbody in Hwp. destruct Hwp as [Hle Hs1].
    cbn [parse_loop]. unfold bind at 1. rewrite (isAtEnd_eq s Hs), He.
    unfold bind at 1, try_catch at 1, bind at 1, declaration, declaration_of,
      try_catch at 1, bind at 1.
    rewrite Hbody. unfold bind at 1, error at 1. unfold bind at 1.
    rewrite (synchronize_skips (current s1) j) by (try assumption; try reflexivity; cursor).
    cbn [diagnostics]. unfold ret at 1. unfold ret at 1.
    rewrite Hd.
    assert (Hj : inb N (mkState (S j) (diagnostics s ++ [(line (token ex), what ex)]))).
    { apply skips_to_spec in Hsk. destruct Hsk as (Hcj & _ & Hend & _).
      assert (Hjend : at_end tokens j = false) by (apply Hend; lia).
      assert (j < S N).
      { rewrite <- length_tokens. apply nth_error_Some.
        unfold at_end in Hjend. destruct (nth_error tokens j); congruence. }
      apply at_end_ne in Hjend. unfold inb. cbn [current]. lia. }
    assert (Hcj : current s1 <= j).
    { apply skips_to_spec in Hsk. tauto. }
    destruct (IH Hj ltac:(cursor) k (acc ++ [None])%list ltac:(cursor)) as [IH1 IH2].
    rewrite IH1, <- app_assoc. split; [reflexivity |].
    rewrite IH2. cbn [diagnostics]. rewrite <- app_assoc. reflexivity.
Qed.

End Cursor.

(** ** More fuel changes nothing *)

Lemma refines_refl {A} (m : M A) : refines m m.
Proof. intros s _. reflexivity. Qed.

Lemma refines_out_of_fuel {A} (m : M A) : refines out_of_fuel m.
Proof. intros s H. contradiction H; reflexivity. Qed.

Lemma refines_bind {A B} (m1 m2 : M A) (k1 k2 : A -> M B) :
  refines m1 m2 -> (forall a, refines (k1 a) (k2 a)) ->
  refines (bind m1 k1) (bind m2 k2).
Proof.
  intros Hm Hk s H. unfold bind in *.
  destruct (m1 s) as [a s1 | ex s1 | s1 |] eqn:E.
  - rewrite (Hm s) by congruence. rewrite E. apply Hk, H.
  - rewrite (Hm s) by congruence. rewrite E. reflexivity.
  - rewrite (Hm s) by congruence. rewrite E. reflexivity.
  - contradiction H; reflexivity.
Qed.

Lemma refines_try_catch {A} (b1 b2 : M A) h1 h2 :
  refines b1 b2 -> (forall ex, refines (h1 ex) (h2 ex)) ->
  refines (try_catch b1 h1) (try_catch b2 h2).
Proof.
  intros Hb Hh s H. unfold try_catch in *.
  destruct (b1 s) as [a s1 | ex s1 | s1 |] eqn:E.
  - rewrite (Hb s) by congruence. rewrite E. reflexivity.
  - rewrite (Hb s) by congruence. rewrite E. apply Hh, H.
  - rewrite (Hb s) by congruence. rewrite E. reflexivity.
  - contradiction H; reflexivity.
Qed.

(** Congruence, one construct at a time. *)
Ltac refines_step :=
  lazymatch goal with
  | |- refines (bind _ _) (bind _ _) => apply refines_bind; [| intros ?]
  | |- refines (try_catch _ _) (try_catch _ _) =>
      apply refines_try_catch; [| intros ?]
  | |- refines out_of_fuel _ => apply refines_out_of_fuel
  | |- refines (if ?b then _ else _) (if ?b then _ else _) => destruct b
  | |- refines (match ?x with _ => _ end) (match ?x with _ => _ end) => destruct x
  | |- refines ?m ?m => apply refines_refl
  end.

Ltac refines_auto := repeat first [ refines_step | assumption | solve [auto with arith] ].

Section Fuel.

Variable tokens : list Token.



Lemma while_match_refines types (b1 b2 : Expr -> M Expr) n m :
  (forall e, refines (b1 e) (b2 e)) -> n <= m ->
  forall e, refines (while_match tokens n types b1 e) (while_match tokens m types b2 e).
Proof.
  intros Hb. revert m. induction n as [| n IH]; intros m Hnm e.
  - apply refines_out_of_fuel.
  - destruct m as [| m]; [lia |]. cbn [while_match].
    refines_auto; try apply Hb; try (apply IH; lia).
Qed.

Section LevelsFuel.

Variables e1 e2 : M Expr.
Hypothesis e1_e2 : refines e1 e2.

Lemma primary_refines : refines (primary tokens e1) (primary tokens e2).
Proof. unfold primary. refines_auto. Qed.

Lemma unary_refines n m :
  n <= m -> refines (unary tokens e1 n) (unary tokens e2 m).
Proof.
  revert m. induction n as [| n IH]; intros m Hnm.
  - apply refines_out_of_fuel.
  - destruct m as [| m]; [lia |]. cbn [unary].
    refines_auto; try (apply IH; lia); try apply primary_refines.
Qed.

(** A binary level refines itself when its operand parser does. *)
Lemma level_refines types (sub1 sub2 : M Expr) mk n m :
  refines sub1 sub2 -> n <= m ->
  refines
    (bind sub1 (fun expr =>
       while_match tokens n types
         (fun expr => bind (previous tokens) (fun op =>
                      bind sub1 (fun right => ret (mk expr op right)))) expr))
    (bind sub2 (fun expr =>
       while_match tokens m types
         (fun expr => bind (previous tokens) (fun op =>
                      bind sub2 (fun right => ret (mk expr op right)))) expr)).
Proof.
  intros Hsub Hnm. refines_auto.
  apply while_match_refines; [| exact Hnm].
  intros e. refines_auto.
Qed.

Lemma factor_refines n m :
  n <= m -> refines (factor tokens e1 n) (factor tokens e2 m).
Proof. intros H. apply level_refines; [apply unary_refines |]; exact H. Qed.

Lemma term_refines n m :
  n <= m -> refines (term tokens e1 n) (term tokens e2 m).
Proof. intros H. apply level_refines; [apply factor_refines |]; exact H. Qed.

Lemma comparison_refines n m :
  n <= m -> refines (comparison tokens e1 n) (comparison tokens e2 m).
Proof. intros H. apply level_refines; [apply term_refines |]; exact H. Qed.

Lemma equality_refines n m :
  n <= m -> refines (equality tokens e1 n) (equality tokens e2 m).
Proof. intros H. apply level_refines; [apply comparison_refines |]; exact H. Qed.

Lemma logicAnd_refines n m :
  n <= m -> refines (logicAnd tokens e1 n) (logicAnd tokens e2 m).
Proof. intros H. apply level_refines; [apply equality_refines |]; exact H. Qed.

Lemma logicOr_refines n m :
  n <= m -> refines (logicOr tokens e1 n) (logicOr tokens e2 m).
Proof. intros H. apply level_refines; [apply logicAnd_refines |]; exact H. Qed.

Lemma assignment_refines n m :
  n <= m -> refines (assignment tokens e1 n) (assignment tokens e2 m).
Proof.
  revert m. induction n as [| n IH]; intros m Hnm.
  - apply refines_out_of_fuel.
  - destruct m as [| m]; [lia |]. cbn [assignment].
    refines_auto; try (apply IH; lia); try (apply logicOr_refines, Hnm).
Qed.

End LevelsFuel.

Lemma expression_refines n m :
  n <= m -> refines (expression tokens n) (expression tokens m).
Proof.
  revert m. induction n as [| n IH]; intros m Hnm.
  - apply refines_out_of_fuel.
  - destruct m as [| m]; [lia |]. cbn [expression].
    apply assignment_refines; [apply IH; lia | exact Hnm].
Qed.




Section NestedFuel.

Variables s1 s2 : M Stmt.
Hypothesis s1_s2 : refines s1 s2.






End NestedFuel.







End Fuel.

Lemma refines_Ok {A} (m1 m2 : M A) s a s' :
  refines m1 m2 -> m1 s = Ok a s' -> m2 s = Ok a s'.
Proof.
  intros H E. rewrite (H s) by (rewrite E; discriminate). exact E.
Qed.

(** * Properties of the parser *)

Lemma terminated_length (body : list Token) (eof : Token) :
  List.length (body ++ [eof]) = S (List.length body).
Proof. rewrite length_app. simpl. lia. Qed.

Lemma terminated_sentinel (body : list Token) (eof : Token) :
  type eof = TokenType.EndOfFile ->
  at_end (body ++ [eof]) (List.length body) = true.
Proof.
  intros H. unfold at_end.
  rewrite nth_error_app2, Nat.sub_diag by lia. simpl. rewrite H. reflexivity.
Qed.

(** With the sentinel in place and fuel for every token, [parse] returns:
    it neither throws nor reads outside the sequence. *)
Lemma parse_returns (body : list Token) (eof : Token) (fuel : nat) :
  type eof = TokenType.EndOfFile ->
  List.length (body ++ [eof]) <= fuel ->
  exists statements s',
    parse (body ++ [eof]) fuel initial = Ok statements s' /\
    current s' <= List.length body.
Proof.
  intros He Hfuel.
  pose proof (parse_bounded (body ++ [eof]) (List.length body)
                (terminated_length body eof) (terminated_sentinel body eof He)
                fuel) as H.
  rewrite terminated_length in Hfuel. specialize (H Hfuel).
  unfold wp in H.
  destruct (parse (body ++ [eof]) fuel initial) as [l s' | | |];
    try contradiction.
  exists l, s'. split; [reflexivity | exact H].
Qed.

(** What [advance] does to the cursor. *)
Lemma advance_cursor (tokens : list Token) s t s' :
  advance tokens s = Ok t s' ->
  (at_end tokens (current s) = true /\ s' = s) \/
  (at_end tokens (current s) = false /\ s' = next s).
Proof.
  unfold advance, isAtEnd, bind, peek, at_end.
  destruct (nth_error tokens (current s)) as [p |]; [| discriminate].
  unfold ret.
  destruct (TokenType_eqb (type p) TokenType.EndOfFile).
  - unfold previous. destruct (current s) as [| c]; [discriminate |].
    destruct (nth_error tokens c); [| discriminate].
    intros H. injection H as _ <-. left. split; reflexivity.
  - unfold increment. fold (next s). unfold previous.
    destruct (current (next s)) as [| c]; [discriminate |].
    destruct (nth_error tokens c); [| discriminate].
    intros H. injection H as _ <-. right. split; reflexivity.
Qed.

(** C10. On a token sequence that ends with the end-of-input token,
    and with fuel for every token, [parse] returns with the cursor at or
    before the sentinel and no [tokens.at] out of range ([peek] and
    [previous] read inside the sequence throughout); [advance] leaves the
    cursor where it is once the end-of-input token is reached, and never
    moves it from inside the sequence past the sentinel. *)
Theorem cursor_never_passes_sentinel (body : list Token) (eof : Token) (fuel : nat) :
  type eof = TokenType.EndOfFile ->
  List.length (body ++ [eof]) <= fuel ->
  (exists statements s',
     parse (body ++ [eof]) fuel initial = Ok statements s' /\
     current s' <= List.length body) /\
  (forall s t s',
     advance (body ++ [eof]) s = Ok t s' ->
     at_end (body ++ [eof]) (current s) = true ->
     current s' = current s) /\
  (forall s t s',
     current s <= List.length body ->
     advance (body ++ [eof]) s = Ok t s' ->
     current s <= current s' <= List.length body).
Proof.
  intros He Hfuel. split; [| split].
  - apply parse_returns; assumption.
  - intros s t s' Ha Hend. apply advance_cursor in Ha.
    destruct Ha as [[_ ->] | [Hf _]]; [reflexivity | congruence].
  - intros s t s' Hs Ha. apply advance_cursor in Ha.
    destruct Ha as [[_ ->] | [Hf ->]]; [lia |].
    unfold next. cbn [current].
    assert (current s <> List.length body).
    { intros Heq. rewrite Heq, terminated_sentinel in Hf by exact He. discriminate. }
    lia.
Qed.

Lemma cursor_never_passes_sentinel_witness :
  type (sample.eof 1) = TokenType.EndOfFile /\
  List.length ([sample.tok TokenType.Print "print" 1; sample.semicolon 1]
               ++ [sample.eof 1]) <= 3 /\
  exists statements s',
    parse ([sample.tok TokenType.Print "print" 1; sample.semicolon 1]
           ++ [sample.eof 1]) 3 initial = Ok statements s' /\
    current s' <= 2.
Proof.
  split; [reflexivity |]. split; [simpl; lia |].
  apply (cursor_never_passes_sentinel
           [sample.tok TokenType.Print "print" 1; sample.semicolon 1]
           (sample.eof 1) 3); [reflexivity | simpl; lia].
Defined.

(** ** No parse error leaves [parse] *)

Lemma no_throw_ret {A} (a : A) : no_throw (ret a).
Proof. intros s ex s'. discriminate. Qed.

Lemma no_throw_bind {A B} (m : M A) (k : A -> M B) :
  no_throw m -> (forall a, no_throw (k a)) -> no_throw (bind m k).
Proof.
  intros Hm Hk s ex s'. unfold bind.
  destruct (m s) as [a s1 | ex1 s1 | s1 |] eqn:E; try discriminate.
  - apply Hk.
  - exfalso. exact (Hm s ex1 s1 E).
Qed.

Lemma no_throw_try_catch {A} (body : M A) handler :
  (forall ex, no_throw (handler ex)) -> no_throw (try_catch body handler).
Proof.
  intros Hh s ex s'. unfold try_catch.
  destruct (body s) as [a s1 | ex1 s1 | s1 |]; try discriminate.
  apply Hh.
Qed.

Lemma no_throw_peek tokens : no_throw (peek tokens).
Proof.
  intros s ex s'. unfold peek. destruct (nth_error tokens (current s)); discriminate.
Qed.

Lemma no_throw_previous tokens : no_throw (previous tokens).
Proof.
  intros s ex s'. unfold previous.
  destruct (current s) as [| c]; [discriminate |].
  destruct (nth_error tokens c); discriminate.
Qed.

Lemma no_throw_isAtEnd tokens : no_throw (isAtEnd tokens).
Proof.
  apply no_throw_bind; [apply no_throw_peek | intros; apply no_throw_ret].
Qed.

Lemma no_throw_advance tokens : no_throw (advance tokens).
Proof.
  apply no_throw_bind; [apply no_throw_isAtEnd |]. intros atEnd.
  apply no_throw_bind; [| intros; apply no_throw_previous].
  destruct atEnd; [apply no_throw_ret | intros s ex s'; discriminate].
Qed.

Lemma no_throw_error ln msg : no_throw (error ln msg).
Proof. intros s ex s'. discriminate. Qed.

Lemma no_throw_synchronize_loop tokens k : no_throw (synchronize_loop tokens k).
Proof.
  induction k as [| k IH]; cbn [synchronize_loop].
  - intros s ex s'. discriminate.
  - apply no_throw_bind; [apply no_throw_isAtEnd |]. intros [|].
    + apply no_throw_ret.
    + apply no_throw_bind; [apply no_throw_previous |]. intros p.
      destruct (TokenType_eqb (type p) TokenType.Semicolon); [apply no_throw_ret |].
      apply no_throw_bind; [apply no_throw_peek |]. intros t.
      destruct (starts_statement (type t)); [apply no_throw_ret |].
      apply no_throw_bind; [apply no_throw_advance | intros; exact IH].
Qed.

Lemma no_throw_synchronize tokens k : no_throw (synchronize tokens k).
Proof.
  apply no_throw_bind; [apply no_throw_advance |].
  intros; apply no_throw_synchronize_loop.
Qed.

Lemma no_throw_declaration tokens fuel : no_throw (declaration tokens fuel).
Proof.
  unfold declaration, declaration_of. apply no_throw_try_catch. intros ex.
  apply no_throw_bind; [apply no_throw_error |]. intros _.
  apply no_throw_bind; [apply no_throw_synchronize | intros; apply no_throw_ret].
Qed.

Lemma no_throw_parse tokens fuel : no_throw (parse tokens fuel).
Proof.
  unfold parse. generalize (@nil (option Stmt)) as acc. generalize fuel at 1 as k.
  induction k as [| k IH]; intros acc; cbn [parse_loop].
  - intros s ex s'. discriminate.
  - apply no_throw_bind; [apply no_throw_isAtEnd |]. intros [|].
    + apply no_throw_ret.
    + apply no_throw_bind.
      * apply no_throw_try_catch. intros ex.
        apply no_throw_bind; [apply no_throw_error |]. intros _.
        apply no_throw_bind; [apply no_throw_synchronize | intros; apply no_throw_ret].
      * intros [d |]; [apply IH | apply no_throw_ret].
Qed.

(** C1, as the code has it. Take a token sequence that ends with the
    end-of-input token and is made of well-formed statements and two
    malformed ones, each raising one parse error and running up to a [;].
    Then [parse] returns (no parse error leaves it), the diagnostics sink
    has received exactly the two errors, in order, and the vector returned
    has each well-formed statement, in order, with a null entry in the
    place of each malformed statement. *)
Theorem parse_recovers_with_null_entries
    (body : list Token) (eof : Token) (fuel : nat)
    (l : list (option Stmt)) (ds : list (Z * string)) (s' : State) :
  type eof = TokenType.EndOfFile ->
  List.length (body ++ [eof]) <= fuel ->
  toplevel (body ++ [eof]) fuel initial l ds s' ->
  null_entries l = 2 ->
  parse (body ++ [eof]) fuel initial = Ok l s' /\
  diagnostics s' = ds /\
  List.length (diagnostics s') = 2 /\
  no_throw (parse (body ++ [eof]) fuel).
Proof.
  intros He Hfuel Htop Hnull.
  rewrite terminated_length in Hfuel.
  destruct (toplevel_parse_loop (body ++ [eof]) (List.length body)
              (terminated_length body eof) (terminated_sentinel body eof He)
              fuel initial l ds s' Htop) with (k := fuel) (acc := @nil (option Stmt))
    as [Hp Hd];
    try (unfold inb, fits, initial; cbn [current]; lia).
  split; [exact Hp |]. split; [exact Hd |]. split.
  - rewrite Hd. simpl. rewrite <- Hnull. eapply toplevel_null_entries. exact Htop.
  - apply no_throw_parse.
Qed.

Lemma parse_recovers_with_null_entries_witness :
  type (sample.eof 5) = TokenType.EndOfFile /\
  List.length (sample.two_errors_body ++ [sample.eof 5]) <= 13 /\
  toplevel (sample.two_errors_body ++ [sample.eof 5]) 13 initial
    sample.two_errors_statements sample.two_errors_diagnostics
    (mkState 12 sample.two_errors_diagnostics) /\
  null_entries sample.two_errors_statements = 2 /\
  parse (sample.two_errors_body ++ [sample.eof 5]) 13 initial =
    Ok sample.two_errors_statements (mkState 12 sample.two_errors_diagnostics).
Proof.
  assert (Htop : toplevel (sample.two_errors_body ++ [sample.eof 5]) 13 initial
            sample.two_errors_statements sample.two_errors_diagnostics
            (mkState 12 sample.two_errors_diagnostics)).
  { unfold sample.two_errors_statements, sample.two_errors_diagnostics.
    eapply (toplevel_bad _ _ _
              (mkRuntimeError (sample.semicolon 1) "Expect expression") _ 1);
      [reflexivity | vm_compute; reflexivity | reflexivity | reflexivity |].
    eapply toplevel_good;
      [reflexivity | vm_compute; reflexivity | reflexivity |].
    eapply (toplevel_bad _ _ _
              (mkRuntimeError (sample.tok TokenType.Equal "=" 3) "Expect variable name")
              _ 8);
      [reflexivity | vm_compute; reflexivity | reflexivity | reflexivity |].
    eapply toplevel_good;
      [reflexivity | vm_compute; reflexivity | reflexivity |].
    apply toplevel_end. reflexivity. }
  split; [reflexivity |]. split; [simpl; lia |]. split; [exact Htop |].
  split; [reflexivity |].
  apply (parse_recovers_with_null_entries sample.two_errors_body (sample.eof 5) 13
           sample.two_errors_statements sample.two_errors_diagnostics
           (mkState 12 sample.two_errors_diagnostics));
    [reflexivity | simpl; lia | exact Htop | reflexivity].
Defined.

(** C1 fails as stated: for a source with two malformed statements the
    vector [parse] returns is not the list of the well-formed statements;
    it also holds a null pointer for each malformed one. *)
Lemma parse_returns_null_entries :
  parse sample.two_errors 13 initial =
    Ok [None; Some (Print (sample.lit 1)); None; Some (Print (sample.lit 3))]
       (mkState 12 sample.two_errors_diagnostics) /\
  [None; Some (Print (sample.lit 1)); None; Some (Print (sample.lit 3))]
    <> [Some (Print (sample.lit 1)); Some (Print (sample.lit 3))].
Proof.
  split; [vm_compute; reflexivity | discriminate].
Qed.

(** ** The shape of what the grammar functions build *)








(** C4. [1 + 2 * 3] parses to the [Binary] of [+] whose right child is
    the [Binary] of [*]; and a source with one operator of every level,
    [a = b or c and d == e < f + g * -h], nests them in the order
    assignment, or, and, equality, comparison, term, factor, unary,
    primary. *)
Theorem multiplication_binds_tighter :
  (forall fuel, 6 <= fuel ->
   expression sample.sum_of_product fuel initial =
    Ok (Binary (sample.lit 1) (sample.tok TokenType.Plus "+" 1)
          (Binary (sample.lit 2) (sample.tok TokenType.Star "*" 1) (sample.lit 3)))
       (mkState 5 [])) /\
  (forall fuel, 17 <= fuel ->
   expression sample.every_level fuel initial =
    Ok (Assign (sample.ident "a" 1)
          (Logical (Variable_ (sample.ident "b" 1)) (sample.tok TokenType.Or "or" 1)
             (Logical (Variable_ (sample.ident "c" 1)) (sample.tok TokenType.And "and" 1)
                (Binary (Variable_ (sample.ident "d" 1))
                   (sample.tok TokenType.EqualEqual "==" 1)
                   (Binary (Variable_ (sample.ident "e" 1))
                      (sample.tok TokenType.LessThanSign "<" 1)
                      (Binary (Variable_ (sample.ident "f" 1))
                         (sample.tok TokenType.Plus "+" 1)
                         (Binary (Variable_ (sample.ident "g" 1))
                            (sample.tok TokenType.Star "*" 1)
                            (Unary (sample.tok TokenType.Minus "-" 1)
                               (Variable_ (sample.ident "h" 1))))))))))
       (mkState 16 [])).
Proof.
  split; intros fuel Hfuel.
  - apply (refines_Ok _ _ _ _ _ (expression_refines sample.sum_of_product 6 fuel Hfuel)).
    vm_compute; reflexivity.
  - apply (refines_Ok _ _ _ _ _ (expression_refines sample.every_level 17 fuel Hfuel)).
    vm_compute; reflexivity.
Qed.



(** ** Further properties *)

(** X1. Panic mode stops just after the [;] that ends the broken
    statement: after an error raised with the cursor at [c], in a
    statement that runs up to a [;] at index [j], [synchronize] returns
    with the cursor at [j + 1] and reports nothing. *)
Theorem synchronize_stops_after_semicolon
    (body : list Token) (eof : Token) (fuel : nat) (s : State) (j : nat) :
  type eof = TokenType.EndOfFile ->
  List.length (body ++ [eof]) - current s <= fuel ->
  skips_to (body ++ [eof]) (current s) j = true ->
  synchronize (body ++ [eof]) fuel s = Ok tt (mkState (S j) (diagnostics s)).
Proof.
  intros He Hfuel Hsk.
  apply (synchronize_skips (body ++ [eof]) (List.length body)
           (terminated_length body eof) (terminated_sentinel body eof He)
           (current s) j fuel s Hsk eq_refl).
  unfold fits. rewrite terminated_length in Hfuel. exact Hfuel.
Qed.

Lemma synchronize_stops_after_semicolon_witness :
  type (sample.eof 5) = TokenType.EndOfFile /\
  List.length (sample.two_errors_body ++ [sample.eof 5]) - current (mkState 6 []) <= 13 /\
  skips_to (sample.two_errors_body ++ [sample.eof 5]) (current (mkState 6 [])) 8 = true /\
  synchronize (sample.two_errors_body ++ [sample.eof 5]) 13 (mkState 6 []) =
    Ok tt (mkState 9 []).
Proof.
  split; [reflexivity |]. split; [simpl; lia |]. split; [reflexivity |].
  apply (synchronize_stops_after_semicolon sample.two_errors_body (sample.eof 5)
           13 (mkState 6 []) 8); [reflexivity | simpl; lia | reflexivity].
Defined.

(** X2. Every call of [declaration] at a token other than the end of
    input returns, with at least one token consumed and the cursor at or
    before the sentinel: the loops of [parse] and [block] always advance. *)
Theorem declaration_makes_progress
    (body : list Token) (eof : Token) (fuel : nat) (s : State) :
  type eof = TokenType.EndOfFile ->
  at_end (body ++ [eof]) (current s) = false ->
  current s <= List.length body ->
  List.length (body ++ [eof]) - current s <= fuel ->
  exists d s',
    declaration (body ++ [eof]) fuel s = Ok d s' /\
    current s < current s' <= List.length body.
Proof.
  intros He Hne Hs Hfuel. rewrite terminated_length in Hfuel.
  pose proof (declaration_recovering (body ++ [eof]) (List.length body)
                (terminated_length body eof) (terminated_sentinel body eof He)
                fuel s Hs Hfuel Hne) as H.
  unfold wp in H.
  destruct (declaration (body ++ [eof]) fuel s) as [d s' | | |];
    try contradiction.
  exists d, s'. split; [reflexivity | exact H].
Qed.

Lemma declaration_makes_progress_witness :
  type (sample.eof 5) = TokenType.EndOfFile /\
  at_end (sample.two_errors_body ++ [sample.eof 5]) (current initial) = false /\
  current initial <= List.length sample.two_errors_body /\
  List.length (sample.two_errors_body ++ [sample.eof 5]) - current initial <= 13 /\
  exists d s',
    declaration (sample.two_errors_body ++ [sample.eof 5]) 13 initial = Ok d s' /\
    current initial < current s' <= List.length sample.two_errors_body.
Proof.
  split; [reflexivity |]. split; [reflexivity |].
  split; [simpl; lia |]. split; [simpl; lia |].
  apply (declaration_makes_progress sample.two_errors_body (sample.eof 5) 13 initial);
    [reflexivity | reflexivity | simpl; lia | simpl; lia].
Defined.

(** X3. Literals render back to their source text: [primary] makes of a
    string token the [Literal] of its attached value, which [obj2str]
    returns verbatim; of [true] and [nil] the literals that render as
    "true" and "nil". *)
Theorem literal_renders_back
    (to_string : float -> string) (t eof : Token) (expr_rec : M Expr) (txt : string) :
  type eof = TokenType.EndOfFile ->
  (type t = TokenType.StringLiteral /\ literal t = object.String txt \/
   type t = TokenType.True /\ txt = "true" \/
   type t = TokenType.Nil /\ txt = "nil") ->
  exists v,
    primary [t; eof] expr_rec initial = Ok (Literal v) (mkState 1 []) /\
    object.obj2str to_string v = object.Returns txt.
Proof.
  intros He H. destruct t as [ty lx lt ln]. cbn [type literal] in H.
  destruct H as [[-> ->] | [[-> ->] | [-> ->]]].
  - exists (object.String txt). split; reflexivity.
  - exists (object.Boolean true). split; reflexivity.
  - exists object.Null. split; reflexivity.
Qed.

Lemma literal_renders_back_witness :
  type (sample.eof 1) = TokenType.EndOfFile /\
  (type (mkToken TokenType.StringLiteral "hello" (object.String "hello") 1)
     = TokenType.StringLiteral /\
   literal (mkToken TokenType.StringLiteral "hello" (object.String "hello") 1)
     = object.String "hello" \/
   type (mkToken TokenType.StringLiteral "hello" (object.String "hello") 1)
     = TokenType.True /\ "hello" = "true" \/
   type (mkToken TokenType.StringLiteral "hello" (object.String "hello") 1)
     = TokenType.Nil /\ "hello" = "nil") /\
  exists v,
    primary [mkToken TokenType.StringLiteral "hello" (object.String "hello") 1;
             sample.eof 1] (expression [] 0) initial
      = Ok (Literal v) (mkState 1 []) /\
    object.obj2str (fun _ => "") v = object.Returns "hello".
Proof.
  split; [reflexivity |]. split; [left; split; reflexivity |].
  apply (literal_renders_back (fun _ => "")
           (mkToken TokenType.StringLiteral "hello" (object.String "hello") 1)
           (sample.eof 1) (expression [] 0) "hello");
    [reflexivity | left; split; reflexivity].
Defined.



(** * Further properties of the value model *)

Module object_more.
Import object.

(** IEEE equality on specified floats: two zeros, or the same float
    other than a NaN. *)
Lemma SFeqb_true_iff (x y : SpecFloat.spec_float) :
  SpecFloat.SFeqb x y = true <->
  (exists s1 s2, x = SpecFloat.S754_zero s1 /\ y = SpecFloat.S754_zero s2) \/
  (x = y /\ x <> SpecFloat.S754_nan).
Proof.
  unfold SpecFloat.SFeqb. split.
  - destruct x as [s1 | s1 | | s1 m1 e1], y as [s2 | s2 | | s2 m2 e2];
      simpl; try discriminate;
      try (destruct s1; discriminate); try (destruct s2; discriminate).
    + intros _. left. eauto.
    + destruct s1, s2; try discriminate; intros _; right; split;
        [reflexivity | discriminate | reflexivity | discriminate].
    + destruct s1, s2; try discriminate;
        destruct (Z.compare e1 e2) eqn:Ee; try discriminate;
        destruct (Pos.compare_cont Eq m1 m2) eqn:Em; try discriminate;
        intros _; apply Z.compare_eq in Ee; apply Pos.compare_eq in Em;
        subst; right; split; [reflexivity | discriminate | reflexivity | discriminate].
  - intros [(s1 & s2 & -> & ->) | [<- Hn]].
    + reflexivity.
    + destruct x as [s | s | | s m e]; simpl.
      * reflexivity.
      * destruct s; reflexivity.
      * contradiction Hn; reflexivity.
      * rewrite Z.compare_refl.
        assert (Hm : Pos.compare_cont Eq m m = Eq) by apply Pos.compare_refl.
        rewrite Hm. destruct s; reflexivity.
Qed.

Lemma SFeqb_sym (x y : SpecFloat.spec_float) :
  SpecFloat.SFeqb x y = SpecFloat.SFeqb y x.
Proof.
  destruct (SpecFloat.SFeqb x y) eqn:Exy, (SpecFloat.SFeqb y x) eqn:Eyx;
    try reflexivity.
  - apply SFeqb_true_iff in Exy. rewrite <- Eyx. symmetry. apply SFeqb_true_iff.
    destruct Exy as [(s1 & s2 & -> & ->) | [<- Hn]]; [left; eauto | right; auto].
  - apply SFeqb_true_iff in Eyx. rewrite <- Exy. apply SFeqb_true_iff.
    destruct Eyx as [(s1 & s2 & -> & ->) | [<- Hn]]; [left; eauto | right; auto].
Qed.

Lemma SFeqb_trans (x y z : SpecFloat.spec_float) :
  SpecFloat.SFeqb x y = true -> SpecFloat.SFeqb y z = true ->
  SpecFloat.SFeqb x z = true.
Proof.
  intros Hxy Hyz. apply SFeqb_true_iff in Hxy. apply SFeqb_true_iff in Hyz.
  apply SFeqb_true_iff.
  destruct Hxy as [(s1 & s2 & -> & ->) | [<- Hn]].
  - destruct Hyz as [(s3 & s4 & _ & ->) | [<- _]]; left; eauto.
  - exact Hyz.
Qed.

Lemma Prim2SF_inj (x y : float) : Prim2SF x = Prim2SF y -> x = y.
Proof.
  intros H. rewrite <- (FloatAxioms.SF2Prim_Prim2SF x), <- (FloatAxioms.SF2Prim_Prim2SF y).
  rewrite H. reflexivity.
Qed.

Lemma zero_classified (d : float) s :
  Prim2SF d = SpecFloat.S754_zero s -> is_zero (Number d) = true.
Proof.
  intros H. unfold is_zero. rewrite FloatAxioms.classify_spec, H.
  destruct s; reflexivity.
Qed.

Lemma variant_eq_sym (a b : Object) : variant_eq a b = variant_eq b a.
Proof.
  destruct a, b; simpl; try reflexivity.
  - apply String.eqb_sym.
  - rewrite !FloatAxioms.eqb_spec. apply SFeqb_sym.
  - destruct b, b0; reflexivity.
  - apply Pos.eqb_sym.
Qed.

Lemma variant_eq_trans (a b c : Object) :
  variant_eq a b = true -> variant_eq b c = true -> variant_eq a c = true.
Proof.
  destruct a, b; simpl; try discriminate; destruct c; simpl; try discriminate.
  - intros H1 H2. apply String.eqb_eq in H1, H2. subst. apply String.eqb_refl.
  - rewrite !FloatAxioms.eqb_spec. apply SFeqb_trans.
  - intros H1 H2. apply Bool.eqb_prop in H1, H2. subst. apply Bool.eqb_reflx.
  - reflexivity.
  - intros H1 H2. apply Pos.eqb_eq in H1, H2. subst. apply Pos.eqb_refl.
Qed.

Lemma isEqual_variant_eq (a b : Object) : isEqual a b = variant_eq a b.
Proof. destruct a, b; reflexivity. Qed.

(** X5. [isEqual] is symmetric, and transitive: it is a partial
    equivalence on values (reflexivity failing only at a NaN). *)
Theorem isEqual_partial_equivalence (a b c : Object) :
  isEqual a b = isEqual b a /\
  (isEqual a b = true -> isEqual b c = true -> isEqual a c = true).
Proof.
  rewrite !isEqual_variant_eq. split.
  - apply variant_eq_sym.
  - apply variant_eq_trans.
Qed.

(** X6. Values that [isEqual] finds equal are the same value, except
    that a zero of one sign equals the zero of the other; so [isEqual]
    never equates two different strings, booleans or callables. *)
Theorem isEqual_true_same_value (a b : Object) :
  isEqual a b = true ->
  a = b \/ (is_zero a = true /\ is_zero b = true).
Proof.
  rewrite isEqual_variant_eq.
  destruct a as [s | d | x | | p], b as [s' | d' | x' | | p'];
    simpl; try discriminate.
  - intros H. apply String.eqb_eq in H. left; congruence.
  - rewrite FloatAxioms.eqb_spec. intros H. apply SFeqb_true_iff in H.
    destruct H as [(s1 & s2 & H1 & H2) | [H _]].
    + right. split; [exact (zero_classified d s1 H1) | exact (zero_classified d' s2 H2)].
    + left. f_equal. apply Prim2SF_inj, H.
  - intros H. apply Bool.eqb_prop in H. left; congruence.
  - intros _. left; reflexivity.
  - intros H. apply Pos.eqb_eq in H. left; congruence.
Qed.

Lemma isEqual_true_same_value_witness :
  isEqual (Number 0%float) (Number (-0)%float) = true /\
  (Number 0%float = Number (-0)%float \/
   (is_zero (Number 0%float) = true /\ is_zero (Number (-0)%float) = true)).
Proof.
  split; [vm_compute; reflexivity |].
  apply (isEqual_true_same_value (Number 0%float) (Number (-0)%float)).
  vm_compute; reflexivity.
Defined.

End object_more.

(** * Further properties of the parser *)

(** ** The cursor primitives at a given token *)

Section Here.

Variable tokens : list Token.
Variable s : State.
Variable t : Token.
Hypothesis here : nth_error tokens (current s) = Some t.

Lemma peek_here : peek tokens s = Ok t s.
Proof. unfold peek. rewrite here. reflexivity. Qed.

Lemma isAtEnd_here :
  isAtEnd tokens s = Ok (TokenType_eqb (type t) TokenType.EndOfFile) s.
Proof. unfold isAtEnd, bind. rewrite peek_here. reflexivity. Qed.

Lemma kind_is_here ty :
  kind_is tokens ty (current s) =
    negb (TokenType_eqb (type t) TokenType.EndOfFile) && TokenType_eqb (type t) ty.
Proof. unfold kind_is. rewrite here. reflexivity. Qed.

Lemma check_here ty : check tokens ty s = Ok (kind_is tokens ty (current s)) s.
Proof.
  unfold check, bind. rewrite isAtEnd_here, kind_is_here.
  destruct (TokenType_eqb (type t) TokenType.EndOfFile); simpl.
  - reflexivity.
  - rewrite peek_here. reflexivity.
Qed.

Lemma advance_here :
  TokenType_eqb (type t) TokenType.EndOfFile = false ->
  advance tokens s = Ok t (next s).
Proof.
  intros He. unfold advance, bind. rewrite isAtEnd_here, He.
  unfold increment. fold (next s). unfold previous, next. cbn [current].
  rewrite here. reflexivity.
Qed.

Lemma match_here types :
  match_ tokens types s =
    if existsb (fun ty => kind_is tokens ty (current s)) types
    then Ok true (next s) else Ok false s.
Proof.
  induction types as [| ty rest IH]; simpl.
  - reflexivity.
  - unfold bind at 1. rewrite check_here.
    destruct (kind_is tokens ty (current s)) eqn:K; simpl.
    + unfold bind. rewrite advance_here; [reflexivity |].
      rewrite kind_is_here in K.
      destruct (TokenType_eqb (type t) TokenType.EndOfFile); [discriminate | reflexivity].
    + exact IH.
Qed.

Lemma consume_here ty msg :
  consume tokens ty msg s =
    if kind_is tokens ty (current s) then Ok t (next s)
    else Throw (mkRuntimeError t msg) s.
Proof.
  unfold consume, bind. rewrite check_here.
  destruct (kind_is tokens ty (current s)) eqn:K.
  - apply advance_here. rewrite kind_is_here in K.
    destruct (TokenType_eqb (type t) TokenType.EndOfFile); [discriminate | reflexivity].
  - rewrite peek_here. reflexivity.
Qed.

End Here.

Lemma TokenType_eqb_refl ty : TokenType_eqb ty ty = true.
Proof. unfold TokenType_eqb. destruct (TokenType_eq_dec ty ty); congruence. Qed.

(** X7. The end-of-input token cannot be matched or consumed:
    [consume] asked for the end-of-input kind throws in every state, and
    with the cursor on the end-of-input token every [match] answers false
    and every [consume] throws its message with that token, the cursor
    staying where it is. *)
Theorem end_of_input_is_never_consumed
    (tokens : list Token) (s : State) (t : Token) :
  nth_error tokens (current s) = Some t ->
  (forall msg,
     consume tokens TokenType.EndOfFile msg s = Throw (mkRuntimeError t msg) s) /\
  (type t = TokenType.EndOfFile ->
   (forall types, match_ tokens types s = Ok false s) /\
   (forall ty msg, consume tokens ty msg s = Throw (mkRuntimeError t msg) s)).
Proof.
  intros Ht. split.
  - intros msg. rewrite (consume_here tokens s t Ht), (kind_is_here tokens s t Ht).
    destruct (TokenType_eqb (type t) TokenType.EndOfFile); reflexivity.
  - intros He. split.
    + intros types. rewrite (match_here tokens s t Ht).
      assert (H : existsb (fun ty => kind_is tokens ty (current s)) types = false).
      { induction types as [| ty rest IH]; simpl; [reflexivity |].
        rewrite (kind_is_here tokens s t Ht), He. simpl. exact IH. }
      rewrite H. reflexivity.
    + intros ty msg.
      rewrite (consume_here tokens s t Ht), (kind_is_here tokens s t Ht), He.
      reflexivity.
Qed.

Lemma end_of_input_is_never_consumed_witness :
  nth_error sample.for_ever (current (mkState 8 [])) = Some (sample.eof 1) /\
  consume sample.for_ever TokenType.EndOfFile "Expect end" (mkState 8 []) =
    Throw (mkRuntimeError (sample.eof 1) "Expect end") (mkState 8 []).
Proof.
  split; [reflexivity |].
  exact (proj1 (end_of_input_is_never_consumed sample.for_ever (mkState 8 [])
                  (sample.eof 1) eq_refl) "Expect end").
Defined.

(** ** Tokens that begin nothing *)

Lemma bind_Throw {A B} (m : M A) (k : A -> M B) s ex s' :
  m s = Throw ex s' -> bind m k s = Throw ex s'.
Proof. intros H. unfold bind. rewrite H. reflexivity. Qed.

Lemma match_rejects tokens s t ty0 types :
  nth_error tokens (current s) = Some t -> type t = ty0 ->
  forallb (fun ty => negb (TokenType_eqb ty0 ty)) types = true ->
  match_ tokens types s = Ok false s.
Proof.
  intros Ht Hty Hall. rewrite (match_here tokens s t Ht).
  assert (H : existsb (fun ty => kind_is tokens ty (current s)) types = false).
  { induction types as [| ty rest IH]; simpl in *; [reflexivity |].
    apply andb_true_iff in Hall. destruct Hall as [H1 H2].
    rewrite (kind_is_here tokens s t Ht), Hty.
    apply negb_true_iff in H1. rewrite H1, andb_false_r. simpl. apply IH, H2. }
  rewrite H. reflexivity.
Qed.

Lemma primary_rejects tokens s t expr_rec :
  nth_error tokens (current s) = Some t ->
  begins_expression (type t) = false ->
  primary tokens expr_rec s = Throw (mkRuntimeError t "Expect expression") s.
Proof.
  intros here Hb. unfold primary.
  destruct (type t) eqn:Ety; try discriminate;
    repeat (unfold bind at 1;
            rewrite (match_rejects tokens s t _ _ here Ety) by reflexivity;
            cbv beta iota);
    unfold bind; rewrite (peek_here tokens s t here); reflexivity.
Qed.

Lemma unary_rejects tokens s t expr_rec fuel :
  nth_error tokens (current s) = Some t ->
  begins_expression (type t) = false ->
  unary tokens expr_rec (S fuel) s = Throw (mkRuntimeError t "Expect expression") s.
Proof.
  intros here Hb. cbn [unary]. unfold bind at 1.
  pose proof (primary_rejects tokens s t expr_rec here Hb) as Hp.
  destruct (type t) eqn:Ety; try discriminate;
    rewrite (match_rejects tokens s t _ _ here Ety) by reflexivity;
    exact Hp.
Qed.

Lemma expression_rejects tokens s t fuel :
  nth_error tokens (current s) = Some t ->
  begins_expression (type t) = false ->
  expression tokens (S fuel) s = Throw (mkRuntimeError t "Expect expression") s.
Proof.
  intros here Hb. cbn [expression assignment]. apply bind_Throw.
  unfold logicOr. apply bind_Throw.
  unfold logicAnd. apply bind_Throw.
  unfold equality. apply bind_Throw.
  unfold comparison. apply bind_Throw.
  unfold term. apply bind_Throw.
  unfold factor. apply bind_Throw.
  apply unary_rejects; assumption.
Qed.

Lemma statement_rejects tokens s t fuel :
  nth_error tokens (current s) = Some t ->
  begins_expression (type t) = false ->
  opens_statement (type t) = false ->
  statement tokens (S fuel) s = Throw (mkRuntimeError t "Expect expression") s.
Proof.
  intros here Hb Hno. cbn [statement].
  pose proof (expression_rejects tokens s t fuel here Hb) as He.
  destruct (type t) eqn:Ety; try discriminate;
    repeat (unfold bind at 1;
            rewrite (match_rejects tokens s t _ _ here Ety) by reflexivity;
            cbv beta iota);
    unfold expressionStatement; apply bind_Throw; exact He.
Qed.

(** X8. A token that begins no expression (an operator such as [+] or
    [=], a closing bracket, [;], the end of input, or one of the keywords
    [and], [class], [else], [fun], [or], [return], [super], [this], and
    [var]) makes [expression] throw "Expect expression" with that token,
    nothing consumed and nothing reported; and unless the token is one
    [statement] dispatches on, [statement] throws the same error. *)
Theorem unexpected_token_is_rejected
    (tokens : list Token) (s : State) (t : Token) (fuel : nat) :
  nth_error tokens (current s) = Some t ->
  begins_expression (type t) = false ->
  expression tokens (S fuel) s =
    Throw (mkRuntimeError t "Expect expression") s /\
  (opens_statement (type t) = false ->
   statement tokens (S fuel) s =
     Throw (mkRuntimeError t "Expect expression") s).
Proof.
  intros Ht Hb. split.
  - apply expression_rejects; assumption.
  - intros Hs. apply statement_rejects; assumption.
Qed.

Lemma unexpected_token_is_rejected_witness :
  nth_error [sample.tok TokenType.Return "return" 7; sample.eof 7]
    (current initial) = Some (sample.tok TokenType.Return "return" 7) /\
  begins_expression (type (sample.tok TokenType.Return "return" 7)) = false /\
  expression [sample.tok TokenType.Return "return" 7; sample.eof 7] 1 initial =
    Throw (mkRuntimeError (sample.tok TokenType.Return "return" 7) "Expect expression")
      initial.
Proof.
  split; [reflexivity |]. split; [reflexivity |].
  exact (proj1 (unexpected_token_is_rejected
                  [sample.tok TokenType.Return "return" 7; sample.eof 7]
                  initial (sample.tok TokenType.Return "return" 7) 0
                  eq_refl eq_refl)).
Defined.

(** ** What a run reports *)

Lemma wlp_ret {A} (a : A) Q E s : Q a s -> wlp (ret a) Q E s.
Proof. intros H; exact H. Qed.

Lemma wlp_throw {A} ex (Q : A -> State -> Prop) E s : E ex s -> wlp (throw ex) Q E s.
Proof. intros H; exact H. Qed.

Lemma wlp_out_of_fuel {A} (Q : A -> State -> Prop) E s : wlp out_of_fuel Q E s.
Proof. exact I. Qed.

Lemma wlp_bind {A B} (m : M A) (k : A -> M B) Q E s :
  wlp m (fun a s' => wlp (k a) Q E s') E s -> wlp (bind m k) Q E s.
Proof. unfold wlp, bind. destruct (m s); auto. Qed.

Lemma wlp_conseq {A} (m : M A) (Q Q' : A -> State -> Prop)
    (E E' : RuntimeError -> State -> Prop) s :
  wlp m Q E s ->
  (forall a s', Q a s' -> Q' a s') ->
  (forall ex s', E ex s' -> E' ex s') ->
  wlp m Q' E' s.
Proof. unfold wlp. destruct (m s); auto. Qed.

Lemma wlp_try_catch {A} (body : M A) handler Q E s :
  wlp body Q (fun ex s' => wlp (handler ex) Q E s') s ->
  wlp (try_catch body handler) Q E s.
Proof. unfold wlp, try_catch. destruct (body s); auto. Qed.

Lemma wlp_error ln msg Q E s :
  Q tt (mkState (current s) (diagnostics s ++ [(ln, msg)])) ->
  wlp (error ln msg) Q E s.
Proof. intros H; exact H. Qed.

Section Reports.

Variable tokens : list Token.

Lemma wlp_peek Q E s :
  (forall t, nth_error tokens (current s) = Some t -> Q t s) ->
  wlp (peek tokens) Q E s.
Proof.
  intros H. unfold wlp, peek.
  destruct (nth_error tokens (current s)); [apply H; reflexivity | exact I].
Qed.

Lemma wlp_previous Q E s : (forall t, Q t s) -> wlp (previous tokens) Q E s.
Proof.
  intros H. unfold wlp, previous. destruct (current s) as [| c]; [exact I |].
  destruct (nth_error tokens c); [apply H | exact I].
Qed.

Lemma wlp_isAtEnd Q E s : (forall b, Q b s) -> wlp (isAtEnd tokens) Q E s.
Proof.
  intros H. unfold isAtEnd. apply wlp_bind, wlp_peek. intros t _.
  apply wlp_ret, H.
Qed.

Lemma wlp_advance Q E s :
  (forall t, Q t (next s)) -> (forall t, Q t s) -> wlp (advance tokens) Q E s.
Proof.
  intros Hn Hs. unfold advance. apply wlp_bind, wlp_isAtEnd. intros [|].
  - apply wlp_bind, wlp_ret. apply wlp_previous, Hs.
  - apply wlp_bind. unfold wlp at 1, increment. fold (next s).
    apply wlp_previous, Hn.
Qed.

Lemma wlp_check ty Q E s : (forall b, Q b s) -> wlp (check tokens ty) Q E s.
Proof.
  intros H. unfold check. apply wlp_bind, wlp_isAtEnd. intros [|].
  - apply wlp_ret, H.
  - apply wlp_bind, wlp_peek. intros t _. apply wlp_ret, H.
Qed.

Lemma wlp_match types Q E s :
  Q true (next s) -> Q false s -> wlp (match_ tokens types) Q E s.
Proof.
  intros Ht Hf. unfold wlp.
  destruct (nth_error tokens (current s)) as [t |] eqn:Hn.
  - rewrite (match_here tokens s t Hn). destruct (existsb _ types); assumption.
  - destruct types as [| ty rest]; simpl; [exact Hf |].
    unfold bind, check, bind, isAtEnd, bind, peek. rewrite Hn. exact I.
Qed.

Lemma wlp_consume ty msg Q E s :
  (forall t, Q t (next s)) ->
  (forall t, nth_error tokens (current s) = Some t -> E (mkRuntimeError t msg) s) ->
  wlp (consume tokens ty msg) Q E s.
Proof.
  intros Ht Hf. unfold wlp.
  destruct (nth_error tokens (current s)) as [t |] eqn:Hn.
  - rewrite (consume_here tokens s t Hn).
    destruct (kind_is tokens ty (current s)); [apply Ht | apply Hf; reflexivity].
  - unfold consume, bind, check, bind, isAtEnd, bind, peek. rewrite Hn. exact I.
Qed.

End Reports.

Lemma appended_refl d : appended d d.
Proof. exists []. rewrite app_nil_r. reflexivity. Qed.

Lemma appended_trans a b c : appended a b -> appended b c -> appended a c.
Proof.
  intros [x ->] [y ->]. exists (x ++ y). rewrite app_assoc. reflexivity.
Qed.

Lemma appended_snoc a b x : appended a b -> appended a (b ++ [x]).
Proof.
  intros [y ->]. exists (y ++ [x]). rewrite app_assoc. reflexivity.
Qed.

Lemma appended_cut a x c : appended (a ++ [x]) c -> appended a c.
Proof.
  intros [y ->]. exists ([x] ++ y). rewrite app_assoc. reflexivity.
Qed.

Lemma nulls_Block l : nulls (Block l) = nulls_list l.
Proof.
  induction l as [| o r IH]; [reflexivity |].
  simpl in *. rewrite IH. reflexivity.
Qed.

Lemma nulls_list_app l r : nulls_list (l ++ r) = nulls_list l + nulls_list r.
Proof.
  induction l as [| o l IH]; simpl; [reflexivity | rewrite IH; lia].
Qed.

(** Diagnostics only accumulate along a run. *)
Ltac appended_chain :=
  solve [ repeat first
            [ apply appended_refl
            | assumption
            | apply appended_snoc
            | (eapply appended_trans; [eassumption |]) ] ].

(** Side conditions: the diagnostics are a longer list, by enough. *)
Ltac tally :=
  unfold since, next in *; cbn [current diagnostics token] in *;
  repeat match goal with
         | H : _ /\ _ |- _ => destruct H
         | H : appended (_ ++ [_]) _ |- _ => pose proof (appended_cut _ _ _ H); clear H
         | H : Logic.False |- _ => contradiction H
         end;
  rewrite ?nulls_Block, ?nulls_list_app, ?length_app in *;
  cbn [nulls nulls_list nulls_entry List.length] in *;
  repeat split;
  first [ appended_chain | lia | assumption ].

Ltac wlp_step :=
  cbv beta iota zeta; cbn [negb andb];
  lazymatch goal with
  | |- wlp (bind _ _) _ _ _ => apply wlp_bind
  | |- wlp (ret _) _ _ _ => apply wlp_ret
  | |- wlp (throw _) _ _ _ => apply wlp_throw
  | |- wlp out_of_fuel _ _ _ => apply wlp_out_of_fuel
  | |- wlp (error _ _) _ _ _ => apply wlp_error
  | |- wlp (match_ _ _) _ _ _ => apply wlp_match
  | |- wlp (check _ _) _ _ _ => apply wlp_check; intros ?
  | |- wlp (consume _ _ _) _ _ _ => apply wlp_consume; [intros ? | intros ? ?]
  | |- wlp (previous _) _ _ _ => apply wlp_previous; intros ?
  | |- wlp (peek _) _ _ _ => apply wlp_peek; intros ? ?
  | |- wlp (isAtEnd _) _ _ _ => apply wlp_isAtEnd; intros ?
  | |- wlp (if ?b then _ else _) _ _ _ => destruct b
  | |- wlp (match ?x with _ => _ end) _ _ _ => destruct x
  end.

Ltac wlp_call H :=
  cbv beta iota zeta;
  eapply wlp_conseq;
  [ apply H
  | cbv beta; intros ? ? ?
  | cbv beta; intros ? ? ?; tally ].

Ltac wlp_auto call :=
  repeat first [ wlp_step | solve [tally] | call ].

Section Tracked.

Variable tokens : list Token.

Section LevelsTracked.

Variable expr_rec : M Expr.
Hypothesis expr_rec_tracked : quiet tokens expr_rec.

Lemma primary_tracked : quiet tokens (primary tokens expr_rec).
Proof.
  intros s. unfold primary.
  wlp_auto ltac:(wlp_call expr_rec_tracked).
Qed.

Lemma unary_tracked n : quiet tokens (unary tokens expr_rec n).
Proof.
  induction n as [| n IH]; intros s; cbn [unary].
  - apply wlp_out_of_fuel.
  - wlp_auto ltac:(first [wlp_call IH | wlp_call primary_tracked]).
Qed.

Lemma while_match_tracked types body :
  (forall e, quiet tokens (body e)) ->
  forall n e, quiet tokens (while_match tokens n types body e).
Proof.
  intros Hbody. induction n as [| n IH]; intros e s; cbn [while_match].
  - apply wlp_out_of_fuel.
  - wlp_auto ltac:(first [wlp_call (Hbody e) | wlp_call IH]).
Qed.

Lemma level_tracked n types (sub : M Expr) (mk : Expr -> Token -> Expr -> Expr) :
  quiet tokens sub ->
  quiet tokens
    (bind sub (fun expr =>
       while_match tokens n types
         (fun expr =>
            bind (previous tokens) (fun op =>
            bind sub (fun right => ret (mk expr op right))))
         expr)).
Proof.
  intros Hsub s. wlp_step. wlp_call Hsub.
  wlp_call (while_match_tracked types
              (fun expr => bind (previous tokens) (fun op =>
                           bind sub (fun right => ret (mk expr op right))))).
  - intros e s1. wlp_auto ltac:(wlp_call Hsub).
  - tally.
Qed.

Lemma factor_tracked n : quiet tokens (factor tokens expr_rec n).
Proof. apply level_tracked, unary_tracked. Qed.

Lemma term_tracked n : quiet tokens (term tokens expr_rec n).
Proof. apply level_tracked, factor_tracked. Qed.

Lemma comparison_tracked n : quiet tokens (comparison tokens expr_rec n).
Proof. apply level_tracked, term_tracked. Qed.

Lemma equality_tracked n : quiet tokens (equality tokens expr_rec n).
Proof. apply level_tracked, comparison_tracked. Qed.

Lemma logicAnd_tracked n : quiet tokens (logicAnd tokens expr_rec n).
Proof. apply level_tracked, equality_tracked. Qed.

Lemma logicOr_tracked n : quiet tokens (logicOr tokens expr_rec n).
Proof. apply level_tracked, logicAnd_tracked. Qed.

Lemma assignment_tracked n : quiet tokens (assignment tokens expr_rec n).
Proof.
  induction n as [| n IH]; intros s; cbn [assignment].
  - apply wlp_out_of_fuel.
  - wlp_auto ltac:(first [wlp_call (logicOr_tracked (S n)) | wlp_call IH]).
Qed.

End LevelsTracked.

Lemma expression_tracked n : quiet tokens (expression tokens n).
Proof.
  induction n as [| n IH]; cbn [expression].
  - intros s. apply wlp_out_of_fuel.
  - apply assignment_tracked, IH.
Qed.


Lemma synchronize_loop_silent n s :
  wlp (synchronize_loop tokens n) (fun _ s' => since s s' 0)
      (fun _ _ => Logic.False) s.
Proof.
  revert s. induction n as [| n IH]; intros s; cbn [synchronize_loop].
  - apply wlp_out_of_fuel.
  - wlp_step. wlp_step. wlp_step; [wlp_step; tally |].
    wlp_step. wlp_step. wlp_step; [wlp_step; tally |].
    wlp_step. wlp_step. wlp_step; [wlp_step; tally |].
    wlp_step. apply wlp_advance; intros _;
      (eapply wlp_conseq; [apply IH | cbv beta; intros; tally | cbv beta; intros; assumption]).
Qed.

Lemma synchronize_silent n s :
  wlp (synchronize tokens n) (fun _ s' => since s s' 0)
      (fun _ _ => Logic.False) s.
Proof.
  unfold synchronize. wlp_step. apply wlp_advance; intros _;
    (eapply wlp_conseq;
     [apply synchronize_loop_silent | cbv beta; intros; tally | cbv beta; intros; assumption]).
Qed.

Lemma varDeclaration_tracked n : tracked tokens nulls (varDeclaration tokens n).
Proof.
  intros s. unfold varDeclaration.
  wlp_auto ltac:(wlp_call (expression_tracked n)).
Qed.

Lemma expressionStatement_tracked n :
  tracked tokens nulls (expressionStatement tokens n).
Proof.
  intros s. unfold expressionStatement.
  wlp_auto ltac:(wlp_call (expression_tracked n)).
Qed.

Lemma printStatement_tracked n : tracked tokens nulls (printStatement tokens n).
Proof.
  intros s. unfold printStatement.
  wlp_auto ltac:(wlp_call (expression_tracked n)).
Qed.

Section NestedTracked.

Variable stmt_rec : M Stmt.
Hypothesis stmt_rec_tracked : tracked tokens nulls stmt_rec.

Lemma forStatement_tracked n : tracked tokens nulls (forStatement tokens stmt_rec n).
Proof.
  intros s. unfold forStatement.
  wlp_auto ltac:(first [ wlp_call (expression_tracked n)
                       | wlp_call (varDeclaration_tracked n)
                       | wlp_call (expressionStatement_tracked n)
                       | wlp_call stmt_rec_tracked ]).
Qed.

Lemma ifStatement_tracked n : tracked tokens nulls (ifStatement tokens stmt_rec n).
Proof.
  intros s. unfold ifStatement.
  wlp_auto ltac:(first [ wlp_call (expression_tracked n)
                       | wlp_call stmt_rec_tracked ]).
Qed.

Lemma whileStatement_tracked n :
  tracked tokens nulls (whileStatement tokens stmt_rec n).
Proof.
  intros s. unfold whileStatement.
  wlp_auto ltac:(first [ wlp_call (expression_tracked n)
                       | wlp_call stmt_rec_tracked ]).
Qed.

Lemma declaration_body_tracked n :
  tracked tokens nulls (declaration_body tokens stmt_rec n).
Proof.
  intros s. unfold declaration_body.
  wlp_auto ltac:(first [ wlp_call (varDeclaration_tracked n)
                       | wlp_call stmt_rec_tracked ]).
Qed.

(** [declaration] lets no error out, and a null pointer it returns has
    cost a diagnostic. *)
Lemma declaration_of_tracked n s :
  wlp (declaration_of tokens stmt_rec n)
      (fun d s' => since s s' (nulls_entry d)) (fun _ _ => Logic.False) s.
Proof.
  unfold declaration_of. apply wlp_try_catch. wlp_step.
  eapply wlp_conseq; [apply declaration_body_tracked | |].
  - cbv beta. intros a s1 H1. wlp_step. tally.
  - cbv beta. intros ex s1 H1. wlp_step. wlp_step. wlp_step.
    eapply wlp_conseq; [apply synchronize_silent | |].
    + cbv beta. intros _ s2 H2. wlp_step. tally.
    + cbv beta. intros; assumption.
Qed.

End NestedTracked.

Section BlockTracked.

Variable decl_rec : M (option Stmt).
Hypothesis decl_rec_tracked :
  forall s, wlp decl_rec (fun d s' => since s s' (nulls_entry d))
                (fun _ _ => Logic.False) s.

Lemma block_loop_tracked n statements s :
  wlp (block_loop tokens decl_rec n statements)
      (fun l s' => since s s' (nulls_list l - nulls_list statements))
      (fun _ _ => Logic.False) s.
Proof.
  revert statements s. induction n as [| n IH]; intros statements s;
    cbn [block_loop].
  - apply wlp_out_of_fuel.
  - wlp_step. wlp_step. destruct b; cbn [negb andb].
    + wlp_step. wlp_step. wlp_step. tally.
    + wlp_step. wlp_step. destruct b; cbn [negb andb].
      * wlp_step. tally.
      * wlp_step. eapply wlp_conseq; [apply decl_rec_tracked | |].
        -- cbv beta. intros d s1 H1.
           eapply wlp_conseq; [apply IH | |].
           ++ cbv beta. intros l s2 H2. tally.
           ++ cbv beta. intros; assumption.
        -- cbv beta. intros; assumption.
Qed.

Lemma block_tracked n : tracked tokens nulls_list (block tokens decl_rec n).
Proof.
  intros s. unfold block. wlp_step.
  eapply wlp_conseq; [apply block_loop_tracked | |].
  - cbv beta. intros l s1 H1. wlp_auto ltac:(idtac).
  - cbv beta. intros ex s1 [].
Qed.

End BlockTracked.

Lemma statement_tracked n : tracked tokens nulls (statement tokens n).
Proof.
  induction n as [| n IH]; intros s; cbn [statement].
  - apply wlp_out_of_fuel.
  - wlp_auto ltac:(first
      [ wlp_call (forStatement_tracked _ IH (S n))
      | wlp_call (ifStatement_tracked _ IH (S n))
      | wlp_call (whileStatement_tracked _ IH (S n))
      | wlp_call (printStatement_tracked (S n))
      | wlp_call (expressionStatement_tracked (S n))
      | wlp_call (block_tracked _ (declaration_of_tracked _ IH (S n)) (S n)) ]).
Qed.

Lemma declaration_tracked n s :
  wlp (declaration tokens n)
      (fun d s' => since s s' (nulls_entry d)) (fun _ _ => Logic.False) s.
Proof. unfold declaration. apply declaration_of_tracked, statement_tracked. Qed.

Lemma parse_loop_tracked k n statements s :
  wlp (parse_loop tokens k n statements)
      (fun l s' => since s s' (nulls_list l - nulls_list statements))
      (fun _ _ => Logic.False) s.
Proof.
  revert statements s. induction k as [| k IH]; intros statements s;
    cbn [parse_loop].
  - apply wlp_out_of_fuel.
  - wlp_step. wlp_step. destruct b.
    + wlp_step. tally.
    + wlp_step. apply wlp_try_catch. wlp_step.
      eapply wlp_conseq; [apply declaration_tracked | |].
      * cbv beta. intros d s1 H1. wlp_step.
        eapply wlp_conseq; [apply IH | |].
        -- cbv beta. intros l s2 H2. tally.
        -- cbv beta. intros; assumption.
      * cbv beta. intros ex s1 [].
Qed.

End Tracked.

Lemma null_entries_le_nulls_list l : null_entries l <= nulls_list l.
Proof.
  unfold null_entries. induction l as [| [x |] l IH]; simpl; lia.
Qed.

(** X9. Every null pointer in what [parse] returns, at the top level or
    inside a block at any depth, has cost a diagnostic: on a token
    sequence ending with the end-of-input token, [parse] returns a vector
    with no more null pointers than diagnostics reported, so a parse that
    reports nothing returns a vector free of null pointers. *)
Theorem null_pointers_cost_diagnostics
    (body : list Token) (eof : Token) (fuel : nat) :
  type eof = TokenType.EndOfFile ->
  List.length (body ++ [eof]) <= fuel ->
  exists l s',
    parse (body ++ [eof]) fuel initial = Ok l s' /\
    nulls_list l <= List.length (diagnostics s') /\
    (diagnostics s' = [] -> nulls_list l = 0 /\ null_entries l = 0).
Proof.
  intros He Hfuel.
  destruct (parse_returns body eof fuel He Hfuel) as (l & s' & Hp & _).
  exists l, s'. split; [exact Hp |].
  pose proof (parse_loop_tracked (body ++ [eof]) fuel fuel [] initial) as H.
  unfold wlp in H. fold (parse (body ++ [eof]) fuel) in H. rewrite Hp in H.
  destruct H as [_ H]. simpl in H.
  split; [lia |].
  intros Hd. rewrite Hd in H. simpl in H.
  pose proof (null_entries_le_nulls_list l). lia.
Qed.

Lemma null_pointers_cost_diagnostics_witness :
  type (sample.eof 5) = TokenType.EndOfFile /\
  List.length (sample.two_errors_body ++ [sample.eof 5]) <= 13 /\
  exists l s',
    parse (sample.two_errors_body ++ [sample.eof 5]) 13 initial = Ok l s' /\
    nulls_list l <= List.length (diagnostics s') /\
    (diagnostics s' = [] -> nulls_list l = 0 /\ null_entries l = 0).
Proof.
  split; [reflexivity |]. split; [simpl; lia |].
  apply (null_pointers_cost_diagnostics sample.two_errors_body (sample.eof 5) 13);
    [reflexivity | simpl; lia].
Defined.

(** X10. A parse error always carries the token under the cursor, and
    diagnostics reported earlier are never lost: when [statement] throws,
    the error's token is the token the cursor is on and the diagnostics
    are those of before with more at the end; when [parse] returns, the
    diagnostics are those it started with, with more at the end. *)
Theorem errors_carry_the_current_token
    (tokens : list Token) (fuel : nat) (s s' : State) :
  (forall ex, statement tokens fuel s = Throw ex s' ->
     nth_error tokens (current s') = Some (token ex) /\
     appended (diagnostics s) (diagnostics s')) /\
  (forall ex, expression tokens fuel s = Throw ex s' ->
     nth_error tokens (current s') = Some (token ex) /\
     appended (diagnostics s) (diagnostics s')) /\
  (forall l, parse tokens fuel s = Ok l s' ->
     appended (diagnostics s) (diagnostics s')).
Proof.
  split; [| split].
  - intros ex H. pose proof (statement_tracked tokens fuel s) as Hw.
    unfold wlp in Hw. rewrite H in Hw. destruct Hw as [[Ha _] Hn]. auto.
  - intros ex H. pose proof (expression_tracked tokens fuel s) as Hw.
    unfold wlp in Hw. rewrite H in Hw. destruct Hw as [[Ha _] Hn]. auto.
  - intros l H. pose proof (parse_loop_tracked tokens fuel fuel [] s) as Hw.
    unfold wlp in Hw. fold (parse tokens fuel) in Hw. rewrite H in Hw.
    destruct Hw as [Ha _]. exact Ha.
Qed.

Lemma errors_carry_the_current_token_witness :
  statement sample.two_errors 13 initial =
    Throw (mkRuntimeError (sample.semicolon 1) "Expect expression") (mkState 1 []) /\
  nth_error sample.two_errors (current (mkState 1 [])) =
    Some (token (mkRuntimeError (sample.semicolon 1) "Expect expression")) /\
  appended (diagnostics initial) (diagnostics (mkState 1 [])).
Proof.
  assert (H : statement sample.two_errors 13 initial =
                Throw (mkRuntimeError (sample.semicolon 1) "Expect expression")
                  (mkState 1 [])) by (vm_compute; reflexivity).
  split; [exact H |].
  exact (proj1 (errors_carry_the_current_token sample.two_errors 13 initial
                  (mkState 1 [])) _ H).
Defined.

(** ** Where [parse] stops *)

Lemma TokenType_eqb_eq a b : TokenType_eqb a b = true <-> a = b.
Proof.
  unfold TokenType_eqb. destruct (TokenType_eq_dec a b); split; congruence.
Qed.

Lemma parse_loop_stops_at_end tokens k n statements s :
  wlp (parse_loop tokens k n statements)
      (fun _ s' => at_end tokens (current s') = true /\
                   exists t, nth_error tokens (current s') = Some t)
      (fun _ _ => Logic.False) s.
Proof.
  revert statements s. induction k as [| k IH]; intros statements s;
    cbn [parse_loop].
  - apply wlp_out_of_fuel.
  - apply wlp_bind. unfold wlp at 1.
    destruct (nth_error tokens (current s)) as [t |] eqn:Ht.
    + rewrite (isAtEnd_here tokens s t Ht).
      destruct (TokenType_eqb (type t) TokenType.EndOfFile) eqn:Ee.
      * apply wlp_ret. split; [| eauto].
        unfold at_end. rewrite Ht. exact Ee.
      * apply wlp_bind, wlp_try_catch, wlp_bind.
        eapply wlp_conseq; [apply declaration_tracked | |].
        -- cbv beta. intros d s1 _. apply wlp_ret. apply IH.
        -- cbv beta. intros ex s1 [].
    + unfold isAtEnd, bind, peek. rewrite Ht. exact I.
Qed.

(** X11. [parse] never stops early: on a token sequence ending with the
    end-of-input token it returns with the cursor on an end-of-input
    token, and when no token before the last is of that kind the cursor
    is on the last token, every token before it consumed. *)
Theorem parse_consumes_the_whole_input
    (body : list Token) (eof : Token) (fuel : nat) :
  type eof = TokenType.EndOfFile ->
  List.length (body ++ [eof]) <= fuel ->
  exists l s',
    parse (body ++ [eof]) fuel initial = Ok l s' /\
    at_end (body ++ [eof]) (current s') = true /\
    ((forall t, In t body -> type t <> TokenType.EndOfFile) ->
     current s' = List.length body).
Proof.
  intros He Hfuel.
  destruct (parse_returns body eof fuel He Hfuel) as (l & s' & Hp & Hle).
  exists l, s'. split; [exact Hp |].
  pose proof (parse_loop_stops_at_end (body ++ [eof]) fuel fuel [] initial) as H.
  unfold wlp in H. fold (parse (body ++ [eof]) fuel) in H. rewrite Hp in H.
  destruct H as [Hend _]. split; [exact Hend |].
  intros Hbody.
  destruct (Nat.eq_dec (current s') (List.length body)) as [Heq | Hne];
    [exact Heq | exfalso].
  assert (Hlt : current s' < List.length body) by lia.
  unfold at_end in Hend. rewrite nth_error_app1 in Hend by exact Hlt.
  destruct (nth_error body (current s')) as [t |] eqn:Ht.
  - apply TokenType_eqb_eq in Hend. apply (Hbody t); [| exact Hend].
    eapply nth_error_In; exact Ht.
  - apply nth_error_None in Ht. lia.
Qed.

Lemma parse_consumes_the_whole_input_witness :
  type (sample.eof 5) = TokenType.EndOfFile /\
  List.length (sample.two_errors_body ++ [sample.eof 5]) <= 13 /\
  exists l s',
    parse (sample.two_errors_body ++ [sample.eof 5]) 13 initial = Ok l s' /\
    at_end (sample.two_errors_body ++ [sample.eof 5]) (current s') = true /\
    ((forall t, In t sample.two_errors_body -> type t <> TokenType.EndOfFile) ->
     current s' = List.length sample.two_errors_body).
Proof.
  split; [reflexivity |]. split; [simpl; lia |].
  apply (parse_consumes_the_whole_input sample.two_errors_body (sample.eof 5) 13);
    [reflexivity | simpl; lia].
Defined.

(** ** Where panic mode stops, in general *)

Lemma synchronize_loop_boundary tokens k s p :
  p < List.length tokens ->
  1 <= current s -> current s <= p ->
  S p - current s <= k ->
  boundary tokens p = true ->
  (forall q, current s <= q < p -> boundary tokens q = false) ->
  synchronize_loop tokens k s = Ok tt (mkState p (diagnostics s)).
Proof.
  revert s. induction k as [| k IH]; intros s Hp H1 Hle Hk Hb Hnb; [lia |].
  destruct (nth_error tokens (current s)) as [t |] eqn:Ht.
  2:{ apply nth_error_None in Ht. lia. }
  destruct (current s) as [| c] eqn:Ec; [lia |].
  destruct (nth_error tokens c) as [b |] eqn:Hprev.
  2:{ apply nth_error_None in Hprev. lia. }
  assert (Hkt : kind_at tokens (S c) = type t)
    by (unfold kind_at; rewrite Ht; reflexivity).
  assert (Hkb : kind_at tokens c = type b)
    by (unfold kind_at; rewrite Hprev; reflexivity).
  assert (Hat : at_end tokens (S c) = TokenType_eqb (type t) TokenType.EndOfFile)
    by (unfold at_end; rewrite Ht; reflexivity).
  assert (Hs : s = mkState (S c) (diagnostics s))
    by (destruct s; simpl in *; congruence).
  cbn [synchronize_loop]. unfold bind at 1.
  rewrite (isAtEnd_here tokens s t) by (rewrite Ec; exact Ht).
  destruct (Nat.eq_dec (S c) p) as [Heq | Hne].
  - (* the cursor is at the boundary *)
    subst p. unfold boundary in Hb. cbn [pred] in Hb.
    rewrite Hat, Hkb, Hkt in Hb.
    destruct (TokenType_eqb (type t) TokenType.EndOfFile).
    + unfold ret. rewrite Hs at 1. reflexivity.
    + unfold bind at 1, previous at 1. rewrite Ec, Hprev.
      destruct (TokenType_eqb (type b) TokenType.Semicolon).
      * unfold ret. rewrite Hs at 1. reflexivity.
      * unfold bind at 1. rewrite (peek_here tokens s t) by (rewrite Ec; exact Ht).
        simpl in Hb. rewrite Hb. unfold ret. rewrite Hs at 1. reflexivity.
  - (* not yet: the loop goes round *)
    assert (Hq : boundary tokens (S c) = false) by (apply Hnb; lia).
    unfold boundary in Hq. cbn [pred] in Hq. rewrite Hat, Hkb, Hkt in Hq.
    apply orb_false_iff in Hq. destruct Hq as [Hq Hq3].
    apply orb_false_iff in Hq. destruct Hq as [Hq1 Hq2].
    rewrite Hq1. unfold bind at 1, previous at 1. rewrite Ec, Hprev, Hq2.
    unfold bind at 1. rewrite (peek_here tokens s t) by (rewrite Ec; exact Ht).
    rewrite Hq3. unfold bind at 1.
    rewrite (advance_here tokens s t) by (rewrite ?Ec; assumption).
    rewrite (IH (next s)); unfold next; rewrite ?Ec; cbn [current diagnostics];
      try reflexivity; try lia; try assumption.
    intros q Hq. apply Hnb. lia.
Qed.

(** X12. Panic mode discards tokens up to the first statement boundary
    and no further: from an error raised on a token other than the end
    of input, [synchronize] returns with the cursor at the first index
    after it where the input ends, or the token before is a [;], or the
    token begins a statement ([class], [fun], [var], [for], [if],
    [while], [print], [return]); it reports nothing. *)
Theorem synchronize_stops_at_the_first_boundary
    (tokens : list Token) (fuel : nat) (s : State) (p : nat) :
  at_end tokens (current s) = false ->
  current s < p < List.length tokens ->
  p - current s <= fuel ->
  boundary tokens p = true ->
  forallb (fun q => negb (boundary tokens q)) (seq (S (current s)) (p - S (current s)))
    = true ->
  synchronize tokens fuel s = Ok tt (mkState p (diagnostics s)).
Proof.
  intros He Hp Hfuel Hb Hnb.
  destruct (nth_error tokens (current s)) as [t |] eqn:Ht.
  2:{ apply nth_error_None in Ht. lia. }
  unfold synchronize, bind.
  rewrite (advance_here tokens s t Ht)
    by (unfold at_end in He; rewrite Ht in He; exact He).
  rewrite (synchronize_loop_boundary tokens fuel (next s) p);
    unfold next; cbn [current diagnostics]; try reflexivity; try lia; try assumption.
  intros q Hq. rewrite forallb_forall in Hnb.
  apply negb_true_iff, Hnb, in_seq. lia.
Qed.

Lemma synchronize_stops_at_the_first_boundary_witness :
  at_end sample.for_loop (current (mkState 11 [])) = false /\
  current (mkState 11 []) < 17 < List.length sample.for_loop /\
  17 - current (mkState 11 []) <= 21 /\
  boundary sample.for_loop 17 = true /\
  forallb (fun q => negb (boundary sample.for_loop q))
    (seq (S (current (mkState 11 []))) (17 - S (current (mkState 11 [])))) = true /\
  synchronize sample.for_loop 21 (mkState 11 []) = Ok tt (mkState 17 []).
Proof.
  split; [reflexivity |]. split; [simpl; lia |]. split; [simpl; lia |].
  split; [reflexivity |]. split; [reflexivity |].
  apply (synchronize_stops_at_the_first_boundary sample.for_loop 21 (mkState 11 []) 17);
    [reflexivity | simpl; lia | simpl; lia | reflexivity | reflexivity].
Defined.

(** ** The trees respect precedence and associativity *)

Lemma well_ranked_Binary l op r k :
  binary_rank (type op) = Some k ->
  well_ranked l = true -> k <= rank l ->
  well_ranked r = true -> S k <= rank r ->
  well_ranked (Binary l op r) = true /\ k <= rank (Binary l op r).
Proof.
  intros Hk Hl Hrl Hr Hrr. cbn [well_ranked rank]. rewrite Hk, Hl, Hr.
  rewrite (proj2 (Nat.leb_le _ _) Hrl), (proj2 (Nat.ltb_lt _ _) Hrr).
  split; [reflexivity | lia].
Qed.

Lemma well_ranked_Logical l op r k :
  logical_rank (type op) = Some k ->
  well_ranked l = true -> k <= rank l ->
  well_ranked r = true -> S k <= rank r ->
  well_ranked (Logical l op r) = true /\ k <= rank (Logical l op r).
Proof.
  intros Hk Hl Hrl Hr Hrr. cbn [well_ranked rank]. rewrite Hk, Hl, Hr.
  rewrite (proj2 (Nat.leb_le _ _) Hrl), (proj2 (Nat.ltb_lt _ _) Hrr).
  split; [reflexivity | lia].
Qed.

Lemma well_formed_Block l : well_formed (Block l) = well_formed_list l.
Proof.
  induction l as [| o r IH]; [reflexivity |].
  simpl in *. rewrite IH. reflexivity.
Qed.

Section Ranked.

Variable tokens : list Token.

(** [match] answers true only on a token of one of the kinds asked for. *)
Lemma wlp_match_kind types Q E s :
  (forall t, nth_error tokens (current s) = Some t ->
             existsb (TokenType_eqb (type t)) types = true ->
             Q true (next s)) ->
  Q false s ->
  wlp (match_ tokens types) Q E s.
Proof.
  intros Ht Hf. unfold wlp.
  destruct (nth_error tokens (current s)) as [t |] eqn:Hn.
  - rewrite (match_here tokens s t Hn).
    destruct (existsb _ types) eqn:Hex; [| exact Hf].
    apply (Ht t eq_refl).
    clear - Hex Hn. induction types as [| ty rest IH]; simpl in *; [discriminate |].
    apply orb_true_iff in Hex. destruct Hex as [Hex | Hex].
    + rewrite (kind_is_here tokens s t Hn) in Hex.
      apply andb_true_iff in Hex. destruct Hex as [_ ->]. reflexivity.
    + rewrite (IH Hex). apply orb_true_r.
  - destruct types as [| ty rest]; simpl; [exact Hf |].
    unfold bind, check, bind, isAtEnd, bind, peek. rewrite Hn. exact I.
Qed.

(** Just after a token was consumed, [previous] is that token. *)
Lemma wlp_previous_next Q E s :
  (forall t, nth_error tokens (current s) = Some t -> Q t (next s)) ->
  wlp (previous tokens) Q E (next s).
Proof.
  intros H. unfold wlp, previous, next. cbn [current].
  destruct (nth_error tokens (current s)) as [t |] eqn:Hn; [| exact I].
  apply (H t eq_refl).
Qed.

(** [consume] returns a token of the kind asked for. *)
Lemma wlp_consume_kind ty msg Q E s :
  (forall t, type t = ty -> Q t (next s)) ->
  (forall ex, E ex s) ->
  wlp (consume tokens ty msg) Q E s.
Proof.
  intros Ht Hf. unfold wlp.
  destruct (nth_error tokens (current s)) as [t |] eqn:Hn.
  - rewrite (consume_here tokens s t Hn).
    destruct (kind_is tokens ty (current s)) eqn:K; [| apply Hf].
    apply Ht. rewrite (kind_is_here tokens s t Hn) in K.
    apply andb_true_iff in K. destruct K as [_ K].
    apply TokenType_eqb_eq in K. exact K.
  - unfold consume, bind, check, bind, isAtEnd, bind, peek. rewrite Hn. exact I.
Qed.

Lemma ranked_le k k' m : ranked k m -> k' <= k -> ranked k' m.
Proof.
  intros H Hk s. eapply wlp_conseq; [apply H | |]; cbv beta.
  - intros e _ [Hw Hr]. split; [exact Hw | lia].
  - auto.
Qed.

Section LevelsRanked.

Variable expr_rec : M Expr.
Hypothesis expr_rec_ranked : ranked 0 expr_rec.

Lemma primary_ranked : ranked 8 (primary tokens expr_rec).
Proof.
  intros s. unfold primary.
  apply wlp_bind, wlp_match_kind; [intros _ _ _; apply wlp_ret; split; [reflexivity | cbn; lia] |].
  apply wlp_bind, wlp_match_kind; [intros _ _ _; apply wlp_ret; split; [reflexivity | cbn; lia] |].
  apply wlp_bind, wlp_match_kind; [intros _ _ _; apply wlp_ret; split; [reflexivity | cbn; lia] |].
  apply wlp_bind, wlp_match_kind.
  { intros _ _ _. apply wlp_bind, wlp_previous. intros t.
    apply wlp_ret. split; [reflexivity | cbn; lia]. }
  apply wlp_bind, wlp_match_kind.
  { intros t0 Ht0 Hk. apply wlp_bind, wlp_previous_next. intros t Ht.
    apply wlp_ret. rewrite Ht0 in Ht. injection Ht as <-.
    simpl in Hk. rewrite orb_false_r in Hk.
    split; [exact Hk | cbn; lia]. }
  apply wlp_bind, wlp_match_kind.
  { intros _ _ _. apply wlp_bind.
    eapply wlp_conseq; [apply expr_rec_ranked | | auto]. cbv beta.
    intros e s1 [Hw _]. apply wlp_bind, wlp_consume; [| intros; exact I].
    intros _. apply wlp_ret. split; [exact Hw | cbn; lia]. }
  apply wlp_bind, wlp_peek. intros t _. apply wlp_throw. exact I.
Qed.

Lemma unary_ranked n : ranked 7 (unary tokens expr_rec n).
Proof.
  induction n as [| n IH]; intros s; cbn [unary].
  - apply wlp_out_of_fuel.
  - apply wlp_bind, wlp_match_kind.
    + intros t0 Ht0 Hk. apply wlp_bind, wlp_previous_next. intros t Ht.
      rewrite Ht0 in Ht. injection Ht as <-.
      apply wlp_bind. eapply wlp_conseq; [apply IH | | auto]. cbv beta.
      intros r s1 [Hw Hr]. apply wlp_ret.
      cbn [well_ranked rank]. simpl in Hk. rewrite orb_false_r in Hk.
      rewrite Hk, Hw, (proj2 (Nat.leb_le _ _) Hr). split; [reflexivity | lia].
    + eapply wlp_conseq; [apply primary_ranked | | auto]. cbv beta.
      intros e _ [Hw Hr]. split; [exact Hw | lia].
Qed.

(** A binary level whose operand parser returns the next tighter level. *)
Lemma level_ranked k n types (sub : M Expr) (mk : Expr -> Token -> Expr -> Expr) :
  ranked (S k) sub ->
  (forall l op r,
     existsb (TokenType_eqb (type op)) types = true ->
     well_ranked l = true -> k <= rank l ->
     well_ranked r = true -> S k <= rank r ->
     well_ranked (mk l op r) = true /\ k <= rank (mk l op r)) ->
  ranked k
    (bind sub (fun expr =>
       while_match tokens n types
         (fun expr =>
            bind (previous tokens) (fun op =>
            bind sub (fun right => ret (mk expr op right))))
         expr)).
Proof.
  intros Hsub Hmk s. apply wlp_bind.
  eapply wlp_conseq; [apply Hsub | | auto]. cbv beta.
  intros e s1 [Hw Hr].
  assert (Hr' : k <= rank e) by lia. clear Hr s.
  revert e s1 Hw Hr'. induction n as [| n IH]; intros e s Hw Hr;
    cbn [while_match].
  - apply wlp_out_of_fuel.
  - apply wlp_bind, wlp_match_kind.
    + intros t0 Ht0 Hk. apply wlp_bind, wlp_bind, wlp_previous_next. intros t Ht.
      rewrite Ht0 in Ht. injection Ht as <-.
      apply wlp_bind. eapply wlp_conseq; [apply Hsub | | auto]. cbv beta.
      intros r s1 [Hwr Hrr]. apply wlp_ret.
      destruct (Hmk e t0 r Hk Hw Hr Hwr Hrr) as [Hw' Hr'].
      apply IH; assumption.
    + apply wlp_ret. split; assumption.
Qed.

Ltac operator_kind Hop :=
  simpl in Hop;
  match type of Hop with
  | context [type ?op] => destruct (type op); try discriminate Hop; reflexivity
  end.

Lemma factor_ranked n : ranked 6 (factor tokens expr_rec n).
Proof.
  apply level_ranked; [apply unary_ranked |].
  intros l op r Hop. apply well_ranked_Binary. operator_kind Hop.
Qed.

Lemma term_ranked n : ranked 5 (term tokens expr_rec n).
Proof.
  apply level_ranked; [apply factor_ranked |].
  intros l op r Hop. apply well_ranked_Binary. operator_kind Hop.
Qed.

Lemma comparison_ranked n : ranked 4 (comparison tokens expr_rec n).
Proof.
  apply level_ranked; [apply term_ranked |].
  intros l op r Hop. apply well_ranked_Binary. operator_kind Hop.
Qed.

Lemma equality_ranked n : ranked 3 (equality tokens expr_rec n).
Proof.
  apply level_ranked; [apply comparison_ranked |].
  intros l op r Hop. apply well_ranked_Binary. operator_kind Hop.
Qed.

Lemma logicAnd_ranked n : ranked 2 (logicAnd tokens expr_rec n).
Proof.
  apply level_ranked; [apply equality_ranked |].
  intros l op r Hop. apply well_ranked_Logical. operator_kind Hop.
Qed.

Lemma logicOr_ranked n : ranked 1 (logicOr tokens expr_rec n).
Proof.
  apply level_ranked; [apply logicAnd_ranked |].
  intros l op r Hop. apply well_ranked_Logical. operator_kind Hop.
Qed.

Lemma assignment_ranked n : ranked 0 (assignment tokens expr_rec n).
Proof.
  induction n as [| n IH]; intros s; cbn [assignment].
  - apply wlp_out_of_fuel.
  - apply wlp_bind. eapply wlp_conseq; [apply (logicOr_ranked (S n)) | | auto].
    cbv beta. intros e s1 [Hw Hr].
    apply wlp_bind, wlp_match.
    + apply wlp_bind, wlp_previous. intros equals.
      apply wlp_bind. eapply wlp_conseq; [apply IH | | auto]. cbv beta.
      intros v s2 [Hwv _].
      destruct e; try (apply wlp_bind, wlp_error, wlp_ret; split; [exact Hw | lia]).
      apply wlp_ret. cbn [well_ranked rank] in *. rewrite Hw, Hwv.
      split; [reflexivity | lia].
    + apply wlp_ret. split; [exact Hw | lia].
Qed.

End LevelsRanked.

Lemma expression_ranked n : ranked 0 (expression tokens n).
Proof.
  induction n as [| n IH]; cbn [expression].
  - intros s. apply wlp_out_of_fuel.
  - apply assignment_ranked, IH.
Qed.


Lemma well_formed_list_app l r :
  well_formed_list (l ++ r) = well_formed_list l && well_formed_list r.
Proof. apply forallb_app. Qed.

(** Side conditions: the parts are well formed, so the whole is. *)
Ltac shape :=
  cbv beta iota zeta;
  rewrite ?well_formed_Block, ?well_formed_list_app in *;
  cbn [well_formed well_formed_entry well_formed_list forallb well_ranked] in *;
  repeat match goal with
         | H : _ /\ _ |- _ => destruct H
         | H : Logic.False |- _ => contradiction H
         | H : ?x = true |- context [?x] => rewrite H
         | H : type ?t = _ |- context [type ?t] => rewrite H
         end;
  first [ exact I | reflexivity | assumption ].

Ltac shape_step :=
  cbv beta iota zeta; cbn [negb andb];
  lazymatch goal with
  | |- wlp (bind _ _) _ _ _ => apply wlp_bind
  | |- wlp (ret _) _ _ _ => apply wlp_ret
  | |- wlp (throw _) _ _ _ => apply wlp_throw
  | |- wlp out_of_fuel _ _ _ => apply wlp_out_of_fuel
  | |- wlp (error _ _) _ _ _ => apply wlp_error
  | |- wlp (match_ _ _) _ _ _ => apply wlp_match
  | |- wlp (check _ _) _ _ _ => apply wlp_check; intros ?
  | |- wlp (consume _ _ _) _ _ _ => apply wlp_consume_kind; [intros ? ? | intros ?]
  | |- wlp (previous _) _ _ _ => apply wlp_previous; intros ?
  | |- wlp (peek _) _ _ _ => apply wlp_peek; intros ? ?
  | |- wlp (isAtEnd _) _ _ _ => apply wlp_isAtEnd; intros ?
  | |- wlp (if ?b then _ else _) _ _ _ => destruct b
  | |- wlp (match ?x with _ => _ end) _ _ _ => destruct x
  end.

Ltac shape_call H :=
  cbv beta iota zeta;
  eapply wlp_conseq;
  [ apply H
  | cbv beta; intros ? ? ?
  | cbv beta; intros ? ? ?; exact I ].

Ltac shape_auto call :=
  repeat first [ shape_step | solve [shape] | call ].

Lemma varDeclaration_shaped n : shaped (varDeclaration tokens n).
Proof.
  intros s. unfold varDeclaration.
  shape_auto ltac:(shape_call (expression_ranked n)).
Qed.

Lemma expressionStatement_shaped n : shaped (expressionStatement tokens n).
Proof.
  intros s. unfold expressionStatement.
  shape_auto ltac:(shape_call (expression_ranked n)).
Qed.

Lemma printStatement_shaped n : shaped (printStatement tokens n).
Proof.
  intros s. unfold printStatement.
  shape_auto ltac:(shape_call (expression_ranked n)).
Qed.

Section NestedShaped.

Variable stmt_rec : M Stmt.
Hypothesis stmt_rec_shaped : shaped stmt_rec.

Lemma forStatement_shaped n : shaped (forStatement tokens stmt_rec n).
Proof.
  intros s. unfold forStatement.
  shape_auto ltac:(first [ shape_call (expression_ranked n)
                         | shape_call (varDeclaration_shaped n)
                         | shape_call (expressionStatement_shaped n)
                         | shape_call stmt_rec_shaped ]).
Qed.

Lemma ifStatement_shaped n : shaped (ifStatement tokens stmt_rec n).
Proof.
  intros s. unfold ifStatement.
  shape_auto ltac:(first [ shape_call (expression_ranked n)
                         | shape_call stmt_rec_shaped ]).
Qed.

Lemma whileStatement_shaped n : shaped (whileStatement tokens stmt_rec n).
Proof.
  intros s. unfold whileStatement.
  shape_auto ltac:(first [ shape_call (expression_ranked n)
                         | shape_call stmt_rec_shaped ]).
Qed.

Lemma declaration_body_shaped n : shaped (declaration_body tokens stmt_rec n).
Proof.
  intros s. unfold declaration_body.
  shape_auto ltac:(first [ shape_call (varDeclaration_shaped n)
                         | shape_call stmt_rec_shaped ]).
Qed.

Lemma wlp_anything {A} (m : M A) s :
  wlp m (fun _ _ => Logic.True) (fun _ _ => Logic.True) s.
Proof. unfold wlp. destruct (m s); exact I. Qed.

Lemma declaration_of_shaped n s :
  wlp (declaration_of tokens stmt_rec n)
      (fun d _ => well_formed_entry d = true) (fun _ _ => Logic.True) s.
Proof.
  unfold declaration_of. apply wlp_try_catch, wlp_bind.
  eapply wlp_conseq; [apply declaration_body_shaped | |]; cbv beta.
  - intros st s1 H. apply wlp_ret. exact H.
  - intros ex s1 _. apply wlp_bind, wlp_error, wlp_bind.
    eapply wlp_conseq; [apply wlp_anything | |]; cbv beta.
    + intros _ s2 _. apply wlp_ret. reflexivity.
    + intros; exact I.
Qed.

End NestedShaped.

Section BlockShaped.

Variable decl_rec : M (option Stmt).
Hypothesis decl_rec_shaped :
  forall s, wlp decl_rec (fun d _ => well_formed_entry d = true)
                (fun _ _ => Logic.True) s.

Lemma block_loop_shaped n statements s :
  well_formed_list statements = true ->
  wlp (block_loop tokens decl_rec n statements)
      (fun l _ => well_formed_list l = true) (fun _ _ => Logic.True) s.
Proof.
  revert statements s. induction n as [| n IH]; intros statements s Hacc;
    cbn [block_loop].
  - apply wlp_out_of_fuel.
  - apply wlp_bind, wlp_check. intros [|]; cbn [negb andb].
    + apply wlp_bind, wlp_ret, wlp_ret. exact Hacc.
    + apply wlp_bind, wlp_isAtEnd. intros [|]; cbn [negb andb].
      * apply wlp_ret. exact Hacc.
      * apply wlp_bind. eapply wlp_conseq; [apply decl_rec_shaped | |]; cbv beta.
        -- intros d s1 Hd. apply IH.
           rewrite well_formed_list_app, Hacc. simpl. rewrite Hd. reflexivity.
        -- intros; exact I.
Qed.

Lemma block_shaped n s :
  wlp (block tokens decl_rec n)
      (fun l _ => well_formed_list l = true) (fun _ _ => Logic.True) s.
Proof.
  unfold block. apply wlp_bind.
  eapply wlp_conseq; [apply block_loop_shaped; reflexivity | |]; cbv beta.
  - intros l s1 Hl. apply wlp_bind, wlp_consume; [| intros; exact I].
    intros _. apply wlp_ret. exact Hl.
  - intros; exact I.
Qed.

End BlockShaped.

Lemma statement_shaped n : shaped (statement tokens n).
Proof.
  induction n as [| n IH]; intros s; cbn [statement].
  - apply wlp_out_of_fuel.
  - shape_auto ltac:(first
      [ shape_call (forStatement_shaped _ IH (S n))
      | shape_call (ifStatement_shaped _ IH (S n))
      | shape_call (whileStatement_shaped _ IH (S n))
      | shape_call (printStatement_shaped (S n))
      | shape_call (expressionStatement_shaped (S n))
      | shape_call (block_shaped _ (declaration_of_shaped _ IH (S n)) (S n)) ]).
Qed.

Lemma parse_loop_shaped k n statements s :
  well_formed_list statements = true ->
  wlp (parse_loop tokens k n statements)
      (fun l _ => well_formed_list l = true) (fun _ _ => Logic.True) s.
Proof.
  revert statements s. induction k as [| k IH]; intros statements s Hacc;
    cbn [parse_loop].
  - apply wlp_out_of_fuel.
  - apply wlp_bind, wlp_isAtEnd. intros [|].
    + apply wlp_ret. exact Hacc.
    + apply wlp_bind, wlp_try_catch, wlp_bind.
      eapply wlp_conseq;
        [apply (declaration_of_shaped _ (statement_shaped n) n) | |]; cbv beta.
      * intros d s1 Hd. apply wlp_ret. apply IH.
        rewrite well_formed_list_app, Hacc. simpl. rewrite Hd. reflexivity.
      * intros ex s1 _. apply wlp_bind, wlp_error, wlp_bind.
        eapply wlp_conseq; [apply wlp_anything | |]; cbv beta.
        -- intros _ s2 _. apply wlp_ret, wlp_ret. exact Hacc.
        -- intros; exact I.
Qed.

End Ranked.

(** X13. Every tree the parser returns respects the grammar, whatever
    the tokens: in each expression an operator node has a left child of
    its own level or a tighter one and a right child of a strictly
    tighter level (so [*] and [/] never have a [+] or [-] as a child, and
    every binary level nests to the left), a looser level occurs inside a
    tighter one only under a [Grouping], the operand of [!] or [-] is of
    level unary or primary, and every variable, assignment target and
    declared name is an identifier token. *)
Theorem trees_respect_the_grammar (tokens : list Token) (fuel : nat) (s s' : State) :
  (forall e, expression tokens fuel s = Ok e s' -> well_ranked e = true) /\
  (forall st, statement tokens fuel s = Ok st s' -> well_formed st = true) /\
  (forall l, parse tokens fuel s = Ok l s' -> well_formed_list l = true).
Proof.
  split; [| split].
  - intros e H. pose proof (expression_ranked tokens fuel s) as Hw.
    unfold wlp in Hw. rewrite H in Hw. apply Hw.
  - intros st H. pose proof (statement_shaped tokens fuel s) as Hw.
    unfold wlp in Hw. rewrite H in Hw. exact Hw.
  - intros l H.
    pose proof (parse_loop_shaped tokens fuel fuel [] s eq_refl) as Hw.
    unfold wlp in Hw. fold (parse tokens fuel) in Hw. rewrite H in Hw. exact Hw.
Qed.

Lemma trees_respect_the_grammar_witness :
  expression sample.every_level 17 initial =
    Ok (Assign (sample.ident "a" 1)
          (Logical (Variable_ (sample.ident "b" 1)) (sample.tok TokenType.Or "or" 1)
             (Logical (Variable_ (sample.ident "c" 1)) (sample.tok TokenType.And "and" 1)
                (Binary (Variable_ (sample.ident "d" 1))
                   (sample.tok TokenType.EqualEqual "==" 1)
                   (Binary (Variable_ (sample.ident "e" 1))
                      (sample.tok TokenType.LessThanSign "<" 1)
                      (Binary (Variable_ (sample.ident "f" 1))
                         (sample.tok TokenType.Plus "+" 1)
                         (Binary (Variable_ (sample.ident "g" 1))
                            (sample.tok TokenType.Star "*" 1)
                            (Unary (sample.tok TokenType.Minus "-" 1)
                               (Variable_ (sample.ident "h" 1))))))))))
       (mkState 16 []) /\
  well_ranked
    (Assign (sample.ident "a" 1)
       (Logical (Variable_ (sample.ident "b" 1)) (sample.tok TokenType.Or "or" 1)
          (Logical (Variable_ (sample.ident "c" 1)) (sample.tok TokenType.And "and" 1)
             (Binary (Variable_ (sample.ident "d" 1))
                (sample.tok TokenType.EqualEqual "==" 1)
                (Binary (Variable_ (sample.ident "e" 1))
                   (sample.tok TokenType.LessThanSign "<" 1)
                   (Binary (Variable_ (sample.ident "f" 1))
                      (sample.tok TokenType.Plus "+" 1)
                      (Binary (Variable_ (sample.ident "g" 1))
                         (sample.tok TokenType.Star "*" 1)
                         (Unary (sample.tok TokenType.Minus "-" 1)
                            (Variable_ (sample.ident "h" 1)))))))))) = true.
Proof.
  assert (H : expression sample.every_level 17 initial = Ok _ (mkState 16 []))
    by (vm_compute; reflexivity).
  split; [exact H |].
  exact (proj1 (trees_respect_the_grammar sample.every_level 17 initial (mkState 16 []))
           _ H).
Defined.

Lemma well_ranked_rejects_loose_children l op' r op x :
  binary_rank (type op) = Some 6 -> binary_rank (type op') = Some 5 ->
  well_ranked (Binary (Binary l op' r) op x) = false /\
  well_ranked (Binary x op' (Binary l op' r)) = false.
Proof.
  intros H6 H5. cbn [well_ranked rank]. rewrite H6, H5. split.
  - reflexivity.
  - rewrite Nat.ltb_irrefl, andb_false_r. reflexivity.
Qed.

(** ** Expressions are parsed greedily *)

Section Greedy.

Variable tokens : list Token.

(** [match] answers false only on a token of none of the kinds. *)
Lemma wlp_match_miss types Q E s :
  types <> [] ->
  Q true (next s) ->
  (forall t, nth_error tokens (current s) = Some t ->
             existsb (fun ty => kind_is tokens ty (current s)) types = false ->
             Q false s) ->
  wlp (match_ tokens types) Q E s.
Proof.
  intros Hne Ht Hf. unfold wlp.
  destruct (nth_error tokens (current s)) as [t |] eqn:Hn.
  - rewrite (match_here tokens s t Hn).
    destruct (existsb _ types) eqn:Hex; [exact Ht | apply (Hf t eq_refl eq_refl)].
  - destruct types as [| ty rest]; [contradiction Hne; reflexivity |]. simpl.
    unfold bind, check, bind, isAtEnd, bind, peek. rewrite Hn. exact I.
Qed.

Lemma below_le k k' s : below tokens k s -> k <= k' -> below tokens k' s.
Proof. intros H Hk t Ht j Hj. specialize (H t Ht j Hj). lia. Qed.

Lemma below_7 s : below tokens 7 s.
Proof.
  intros t _ j Hj. unfold operator_level in Hj.
  destruct (type t); simpl in Hj; try discriminate; injection Hj as <-; lia.
Qed.

(** A binary level stops at a token that is no operator of its level,
    nor, its operand parser being greedy, of a tighter one. *)
Lemma level_greedy k n types (sub : M Expr) (mk : Expr -> Token -> Expr -> Expr) :
  types <> [] ->
  (forall s, wlp sub (fun _ s' => below tokens (S k) s') (fun _ _ => Logic.True) s) ->
  (forall ty, operator_level ty = Some k ->
     ty <> TokenType.EndOfFile /\ existsb (TokenType_eqb ty) types = true) ->
  greedy tokens k
    (bind sub (fun expr =>
       while_match tokens n types
         (fun expr =>
            bind (previous tokens) (fun op =>
            bind sub (fun right => ret (mk expr op right))))
         expr)).
Proof.
  intros Hne Hsub Hops s. apply wlp_bind.
  eapply wlp_conseq; [apply Hsub | | auto]. cbv beta.
  intros e s1 Hb. clear s. revert e s1 Hb.
  induction n as [| n IH]; intros e s Hb; cbn [while_match].
  - apply wlp_out_of_fuel.
  - apply wlp_bind, wlp_match_miss; [exact Hne | |].
    + apply wlp_bind, wlp_bind, wlp_previous. intros op.
      apply wlp_bind. eapply wlp_conseq; [apply Hsub | | auto]. cbv beta.
      intros r s1 Hb1. apply wlp_ret. apply IH, Hb1.
    + intros t Ht Hmiss. apply wlp_ret. split; [eauto |].
      intros t' Ht' j Hj. rewrite Ht in Ht'. injection Ht' as <-.
      specialize (Hb t Ht j Hj).
      destruct (Nat.eq_dec j k) as [-> | Hjk]; [exfalso | lia].
      destruct (Hops (type t) Hj) as [Hnoend Hin].
      assert (Hhit : existsb (fun ty => kind_is tokens ty (current s)) types = true).
      { clear - Hin Hnoend Ht. induction types as [| ty rest IHt]; simpl in *;
          [discriminate |].
        apply orb_true_iff in Hin. destruct Hin as [Hin | Hin].
        - rewrite (kind_is_here tokens s t Ht), Hin.
          destruct (TokenType_eqb (type t) TokenType.EndOfFile) eqn:Ee;
            [apply TokenType_eqb_eq in Ee; contradiction | reflexivity].
        - rewrite (IHt Hin). apply orb_true_r. }
      congruence.
Qed.

Ltac level_kinds :=
  let ty := fresh "ty" in
  let H := fresh "H" in
  intros ty H; unfold operator_level in H;
  destruct ty; simpl in H; try discriminate H;
  (split; [discriminate | reflexivity]).

Ltac weaker H :=
  let s := fresh "s" in
  intros s; eapply wlp_conseq; [apply H | | auto]; cbv beta;
  let a := fresh in let s' := fresh in let Hp := fresh in
  intros a s' Hp; first [ apply Hp | (eapply below_le; [apply Hp | lia]) ].

Section LevelsGreedy.

Variable expr_rec : M Expr.

Lemma unary_below n s :
  wlp (unary tokens expr_rec n) (fun _ s' => below tokens 7 s')
      (fun _ _ => Logic.True) s.
Proof.
  eapply wlp_conseq; [apply wlp_anything | | auto]. cbv beta.
  intros _ s' _. apply below_7.
Qed.

Lemma factor_greedy n : greedy tokens 6 (factor tokens expr_rec n).
Proof.
  apply level_greedy; [discriminate | apply unary_below | level_kinds].
Qed.

Lemma term_greedy n : greedy tokens 5 (term tokens expr_rec n).
Proof.
  apply level_greedy; [discriminate | weaker (factor_greedy n) | level_kinds].
Qed.

Lemma comparison_greedy n : greedy tokens 4 (comparison tokens expr_rec n).
Proof.
  apply level_greedy; [discriminate | weaker (term_greedy n) | level_kinds].
Qed.

Lemma equality_greedy n : greedy tokens 3 (equality tokens expr_rec n).
Proof.
  apply level_greedy; [discriminate | weaker (comparison_greedy n) | level_kinds].
Qed.

Lemma logicAnd_greedy n : greedy tokens 2 (logicAnd tokens expr_rec n).
Proof.
  apply level_greedy; [discriminate | weaker (equality_greedy n) | level_kinds].
Qed.

Lemma logicOr_greedy n : greedy tokens 1 (logicOr tokens expr_rec n).
Proof.
  apply level_greedy; [discriminate | weaker (logicAnd_greedy n) | level_kinds].
Qed.

Lemma assignment_greedy n : greedy tokens 0 (assignment tokens expr_rec n).
Proof.
  induction n as [| n IH]; intros s; cbn [assignment].
  - apply wlp_out_of_fuel.
  - apply wlp_bind. eapply wlp_conseq; [apply (logicOr_greedy (S n)) | | auto].
    cbv beta. intros e s1 [Hex Hb].
    apply wlp_bind, wlp_match_miss; [discriminate | |].
    + apply wlp_bind, wlp_previous. intros equals.
      apply wlp_bind. eapply wlp_conseq; [apply IH | | auto]. cbv beta.
      intros v s2 Hp.
      destruct e; try (apply wlp_bind, wlp_error, wlp_ret; exact Hp).
      apply wlp_ret. exact Hp.
    + intros t Ht Hmiss. apply wlp_ret. split; [exact Hex |].
      intros t' Ht' j Hj. rewrite Ht in Ht'. injection Ht' as <-.
      specialize (Hb t Ht j Hj).
      assert (j = 0) by lia. subst j. exfalso.
      simpl in Hmiss. rewrite orb_false_r, (kind_is_here tokens s1 t Ht) in Hmiss.
      unfold operator_level in Hj.
      destruct (type t); simpl in Hj; try discriminate Hj; discriminate Hmiss.
Qed.

End LevelsGreedy.

Lemma expression_greedy n : greedy tokens 0 (expression tokens n).
Proof.
  destruct n as [| n]; cbn [expression].
  - intros s. apply wlp_out_of_fuel.
  - apply assignment_greedy.
Qed.

End Greedy.

(** X14. Expressions are parsed greedily: when [expression] returns,
    there is a token under the cursor and it is none that could continue
    the expression: not [=], [or], [and], nor any binary operator. *)
Theorem expression_takes_all_it_can
    (tokens : list Token) (fuel : nat) (s s' : State) (e : Expr) :
  expression tokens fuel s = Ok e s' ->
  exists t,
    nth_error tokens (current s') = Some t /\
    continues_expression (type t) = false.
Proof.
  intros H. pose proof (expression_greedy tokens fuel s) as Hw.
  unfold wlp in Hw. rewrite H in Hw. destruct Hw as [[t Ht] Hb].
  exists t. split; [exact Ht |].
  unfold continues_expression.
  destruct (operator_level (type t)) as [j |] eqn:Hj; [| reflexivity].
  specialize (Hb t Ht j Hj). lia.
Qed.

Lemma expression_takes_all_it_can_witness :
  expression sample.for_loop 21 (mkState 7 []) =
    Ok (Binary (Variable_ (sample.ident "i" 1))
          (sample.tok TokenType.LessThanSign "<" 1) (sample.lit 3))
       (mkState 10 []) /\
  exists t,
    nth_error sample.for_loop (current (mkState 10 [])) = Some t /\
    continues_expression (type t) = false.
Proof.
  assert (H : expression sample.for_loop 21 (mkState 7 []) = Ok _ (mkState 10 []))
    by (vm_compute; reflexivity).
  split; [exact H |].
  exact (expression_takes_all_it_can sample.for_loop 21 (mkState 7 []) (mkState 10 [])
           _ H).
Defined.

(** ** What follows the end of input is never read *)

Lemma agrees_refl {A} (m : M A) : agrees m m.
Proof. intros s _. reflexivity. Qed.

Lemma agrees_bind {A B} (m1 m2 : M A) (k1 k2 : A -> M B) :
  agrees m1 m2 -> (forall a, agrees (k1 a) (k2 a)) ->
  agrees (bind m1 k1) (bind m2 k2).
Proof.
  intros Hm Hk s H. unfold bind in *.
  destruct (m1 s) as [a s1 | ex s1 | s1 |] eqn:E.
  - rewrite (Hm s) by (intros s'; rewrite E; discriminate). rewrite E.
    apply Hk, H.
  - rewrite (Hm s) by (intros s'; rewrite E; discriminate). rewrite E. reflexivity.
  - contradiction (H s1). reflexivity.
  - rewrite (Hm s) by (intros s'; rewrite E; discriminate). rewrite E. reflexivity.
Qed.

Lemma agrees_try_catch {A} (b1 b2 : M A) h1 h2 :
  agrees b1 b2 -> (forall ex, agrees (h1 ex) (h2 ex)) ->
  agrees (try_catch b1 h1) (try_catch b2 h2).
Proof.
  intros Hb Hh s H. unfold try_catch in *.
  destruct (b1 s) as [a s1 | ex s1 | s1 |] eqn:E.
  - rewrite (Hb s) by (intros s'; rewrite E; discriminate). rewrite E. reflexivity.
  - rewrite (Hb s) by (intros s'; rewrite E; discriminate). rewrite E. apply Hh, H.
  - contradiction (H s1). reflexivity.
  - rewrite (Hb s) by (intros s'; rewrite E; discriminate). rewrite E. reflexivity.
Qed.

Ltac agrees_step :=
  lazymatch goal with
  | |- agrees (bind _ _) (bind _ _) => apply agrees_bind; [| intros ?]
  | |- agrees (try_catch _ _) (try_catch _ _) =>
      apply agrees_try_catch; [| intros ?]
  | |- agrees (if ?b then _ else _) (if ?b then _ else _) => destruct b
  | |- agrees (match ?x with _ => _ end) (match ?x with _ => _ end) => destruct x
  | |- agrees ?m ?m => apply agrees_refl
  end.

Section Beyond.

(** A token sequence, and the same with more tokens after it. *)
Variable tokens : list Token.
Variable more : list Token.

Lemma nth_error_longer c t :
  nth_error tokens c = Some t -> nth_error (tokens ++ more) c = Some t.
Proof.
  intros H. rewrite nth_error_app1; [exact H |].
  apply nth_error_Some. congruence.
Qed.

Lemma peek_agrees : agrees (peek tokens) (peek (tokens ++ more)).
Proof.
  intros s H. unfold peek in *.
  destruct (nth_error tokens (current s)) as [t |] eqn:Ht.
  - rewrite (nth_error_longer _ _ Ht). reflexivity.
  - contradiction (H s). reflexivity.
Qed.

Lemma previous_agrees : agrees (previous tokens) (previous (tokens ++ more)).
Proof.
  intros s H. unfold previous in *.
  destruct (current s) as [| c]; [reflexivity |].
  destruct (nth_error tokens c) as [t |] eqn:Ht.
  - rewrite (nth_error_longer _ _ Ht). reflexivity.
  - contradiction (H s). reflexivity.
Qed.

Ltac agrees_auto :=
  repeat first
    [ agrees_step
    | apply peek_agrees
    | apply previous_agrees
    | assumption ].

Lemma isAtEnd_agrees : agrees (isAtEnd tokens) (isAtEnd (tokens ++ more)).
Proof. unfold isAtEnd. agrees_auto. Qed.

Lemma advance_agrees : agrees (advance tokens) (advance (tokens ++ more)).
Proof. unfold advance. agrees_auto. apply isAtEnd_agrees. Qed.

Lemma check_agrees ty : agrees (check tokens ty) (check (tokens ++ more) ty).
Proof. unfold check. agrees_auto. apply isAtEnd_agrees. Qed.

Lemma consume_agrees ty msg :
  agrees (consume tokens ty msg) (consume (tokens ++ more) ty msg).
Proof.
  unfold consume. agrees_auto; first [apply check_agrees | apply advance_agrees].
Qed.

Lemma match_agrees types : agrees (match_ tokens types) (match_ (tokens ++ more) types).
Proof.
  induction types as [| ty rest IH]; simpl.
  - apply agrees_refl.
  - agrees_auto; first [apply check_agrees | apply advance_agrees].
Qed.

Ltac agrees_prim :=
  first [ apply peek_agrees | apply previous_agrees | apply isAtEnd_agrees
        | apply advance_agrees | apply check_agrees | apply consume_agrees
        | apply match_agrees ].

Ltac agrees_all call :=
  repeat first [ agrees_step | agrees_prim | assumption | call ].

Lemma synchronize_agrees n :
  agrees (synchronize tokens n) (synchronize (tokens ++ more) n).
Proof.
  unfold synchronize. agrees_all ltac:(idtac).
  induction n as [| n IH]; cbn [synchronize_loop]; agrees_all ltac:(idtac).
Qed.

Lemma while_match_agrees types (b1 b2 : Expr -> M Expr) n :
  (forall e, agrees (b1 e) (b2 e)) ->
  forall e, agrees (while_match tokens n types b1 e)
                   (while_match (tokens ++ more) n types b2 e).
Proof.
  intros Hb. induction n as [| n IH]; intros e; cbn [while_match].
  - apply agrees_refl.
  - agrees_all ltac:(first [apply Hb | apply IH]).
Qed.

Section LevelsBeyond.

Variables e1 e2 : M Expr.
Hypothesis e1_e2 : agrees e1 e2.

Lemma primary_agrees : agrees (primary tokens e1) (primary (tokens ++ more) e2).
Proof. unfold primary. agrees_all ltac:(idtac). Qed.

Lemma unary_agrees n : agrees (unary tokens e1 n) (unary (tokens ++ more) e2 n).
Proof.
  induction n as [| n IH]; cbn [unary].
  - apply agrees_refl.
  - agrees_all ltac:(apply primary_agrees).
Qed.

Lemma level_agrees types (sub1 sub2 : M Expr) mk n :
  agrees sub1 sub2 ->
  agrees
    (bind sub1 (fun expr =>
       while_match tokens n types
         (fun expr => bind (previous tokens) (fun op =>
                      bind sub1 (fun right => ret (mk expr op right)))) expr))
    (bind sub2 (fun expr =>
       while_match (tokens ++ more) n types
         (fun expr => bind (previous (tokens ++ more)) (fun op =>
                      bind sub2 (fun right => ret (mk expr op right)))) expr)).
Proof.
  intros Hsub. agrees_step; [exact Hsub |].
  apply while_match_agrees. intros e. agrees_all ltac:(idtac).
Qed.

Lemma factor_agrees n : agrees (factor tokens e1 n) (factor (tokens ++ more) e2 n).
Proof. apply level_agrees, unary_agrees. Qed.

Lemma term_agrees n : agrees (term tokens e1 n) (term (tokens ++ more) e2 n).
Proof. apply level_agrees, factor_agrees. Qed.

Lemma comparison_agrees n :
  agrees (comparison tokens e1 n) (comparison (tokens ++ more) e2 n).
Proof. apply level_agrees, term_agrees. Qed.

Lemma equality_agrees n :
  agrees (equality tokens e1 n) (equality (tokens ++ more) e2 n).
Proof. apply level_agrees, comparison_agrees. Qed.

Lemma logicAnd_agrees n :
  agrees (logicAnd tokens e1 n) (logicAnd (tokens ++ more) e2 n).
Proof. apply level_agrees, equality_agrees. Qed.

Lemma logicOr_agrees n :
  agrees (logicOr tokens e1 n) (logicOr (tokens ++ more) e2 n).
Proof. apply level_agrees, logicAnd_agrees. Qed.

Lemma assignment_agrees n :
  agrees (assignment tokens e1 n) (assignment (tokens ++ more) e2 n).
Proof.
  induction n as [| n IH]; cbn [assignment].
  - apply agrees_refl.
  - agrees_all ltac:(apply logicOr_agrees).
Qed.

End LevelsBeyond.

Lemma expression_agrees n :
  agrees (expression tokens n) (expression (tokens ++ more) n).
Proof.
  induction n as [| n IH]; cbn [expression].
  - apply agrees_refl.
  - apply assignment_agrees, IH.
Qed.

Lemma varDeclaration_agrees n :
  agrees (varDeclaration tokens n) (varDeclaration (tokens ++ more) n).
Proof. unfold varDeclaration. agrees_all ltac:(apply expression_agrees). Qed.

Lemma expressionStatement_agrees n :
  agrees (expressionStatement tokens n) (expressionStatement (tokens ++ more) n).
Proof. unfold expressionStatement. agrees_all ltac:(apply expression_agrees). Qed.

Lemma printStatement_agrees n :
  agrees (printStatement tokens n) (printStatement (tokens ++ more) n).
Proof. unfold printStatement. agrees_all ltac:(apply expression_agrees). Qed.

Section NestedBeyond.

Variables s1 s2 : M Stmt.
Hypothesis s1_s2 : agrees s1 s2.

Lemma forStatement_agrees n :
  agrees (forStatement tokens s1 n) (forStatement (tokens ++ more) s2 n).
Proof.
  unfold forStatement.
  agrees_all ltac:(first [ apply expression_agrees
                         | apply varDeclaration_agrees
                         | apply expressionStatement_agrees ]).
Qed.

Lemma ifStatement_agrees n :
  agrees (ifStatement tokens s1 n) (ifStatement (tokens ++ more) s2 n).
Proof. unfold ifStatement. agrees_all ltac:(apply expression_agrees). Qed.

Lemma whileStatement_agrees n :
  agrees (whileStatement tokens s1 n) (whileStatement (tokens ++ more) s2 n).
Proof. unfold whileStatement. agrees_all ltac:(apply expression_agrees). Qed.

Lemma declaration_of_agrees n :
  agrees (declaration_of tokens s1 n) (declaration_of (tokens ++ more) s2 n).
Proof.
  unfold declaration_of, declaration_body.
  agrees_all ltac:(first [ apply varDeclaration_agrees | apply synchronize_agrees ]).
Qed.

End NestedBeyond.

Lemma block_agrees (d1 d2 : M (option Stmt)) n :
  agrees d1 d2 -> agrees (block tokens d1 n) (block (tokens ++ more) d2 n).
Proof.
  intros Hd. unfold block. agrees_step; [| agrees_all ltac:(idtac)].
  generalize (@nil (option Stmt)) as acc.
  induction n as [| n IH]; intros acc; cbn [block_loop].
  - apply agrees_refl.
  - agrees_all ltac:(apply IH).
Qed.

Lemma statement_agrees n :
  agrees (statement tokens n) (statement (tokens ++ more) n).
Proof.
  induction n as [| n IH]; cbn [statement].
  - apply agrees_refl.
  - agrees_all ltac:(first
      [ apply forStatement_agrees
      | apply ifStatement_agrees
      | apply whileStatement_agrees
      | apply printStatement_agrees
      | apply expressionStatement_agrees
      | apply block_agrees, declaration_of_agrees ]).
Qed.

Lemma declaration_agrees n :
  agrees (declaration tokens n) (declaration (tokens ++ more) n).
Proof. unfold declaration. apply declaration_of_agrees, statement_agrees. Qed.

Lemma parse_agrees n : agrees (parse tokens n) (parse (tokens ++ more) n).
Proof.
  unfold parse. generalize (@nil (option Stmt)) as acc. generalize n at 1 3 as k.
  induction k as [| k IH]; intros acc; cbn [parse_loop].
  - apply agrees_refl.
  - agrees_all ltac:(first [ apply declaration_agrees
                           | apply synchronize_agrees
                           | apply IH ]).
Qed.

End Beyond.

(** X15. [parse] never reads beyond the end-of-input token: whatever
    tokens follow it in the sequence, the statements returned, the cursor
    and the diagnostics are the same as without them. *)
Theorem tokens_after_the_end_are_never_read
    (body : list Token) (eof : Token) (more : list Token) (fuel : nat) :
  type eof = TokenType.EndOfFile ->
  List.length (body ++ [eof]) <= fuel ->
  parse ((body ++ [eof]) ++ more) fuel initial = parse (body ++ [eof]) fuel initial.
Proof.
  intros He Hfuel.
  destruct (parse_returns body eof fuel He Hfuel) as (l & s' & Hp & _).
  apply parse_agrees. intros s0. rewrite Hp. discriminate.
Qed.

Lemma tokens_after_the_end_are_never_read_witness :
  type (sample.eof 1) = TokenType.EndOfFile /\
  List.length ([sample.tok TokenType.Print "print" 1; sample.number "1" 1%float 1;
                sample.semicolon 1] ++ [sample.eof 1]) <= 4 /\
  parse (([sample.tok TokenType.Print "print" 1; sample.number "1" 1%float 1;
           sample.semicolon 1] ++ [sample.eof 1]) ++ sample.two_errors) 4 initial =
  parse ([sample.tok TokenType.Print "print" 1; sample.number "1" 1%float 1;
          sample.semicolon 1] ++ [sample.eof 1]) 4 initial.
Proof.
  split; [reflexivity |]. split; [simpl; lia |].
  apply (tokens_after_the_end_are_never_read
           [sample.tok TokenType.Print "print" 1; sample.number "1" 1%float 1;
            sample.semicolon 1] (sample.eof 1) sample.two_errors 4);
    [reflexivity | simpl; lia].
Defined.

(** ** Without the sentinel, and after the parse *)

(** X16. On a token sequence with no end-of-input token (the empty
    sequence among them) [parse] cannot return: given fuel for every
    token and one more, the run ends in the [std::out_of_range] of
    [tokens.at], which no handler of the parser catches. *)
Theorem parse_without_sentinel_is_out_of_range
    (tokens : list Token) (fuel : nat) :
  (forall t, In t tokens -> type t <> TokenType.EndOfFile) ->
  List.length tokens < fuel ->
  exists s', parse tokens fuel initial = OutOfRange s'.
Proof.
  intros Hno Hfuel.
  set (eof := mkToken TokenType.EndOfFile "" object.Null 0).
  assert (Hlen : List.length (tokens ++ [eof]) <= fuel)
    by (rewrite terminated_length; lia).
  destruct (parse_returns tokens eof fuel eq_refl Hlen) as (l & s' & Hp & _).
  destruct (parse tokens fuel initial) as [l0 s0 | ex s0 | s0 |] eqn:E.
  - exfalso.
    pose proof (parse_loop_stops_at_end tokens fuel fuel [] initial) as H.
    unfold wlp in H. fold (parse tokens fuel) in H. rewrite E in H.
    destruct H as [Hend [t Ht]].
    unfold at_end in Hend. rewrite Ht in Hend. apply TokenType_eqb_eq in Hend.
    apply (Hno t); [eapply nth_error_In; exact Ht | exact Hend].
  - exfalso. exact (no_throw_parse tokens fuel initial ex s0 E).
  - eauto.
  - exfalso.
    assert (Ha : parse (tokens ++ [eof]) fuel initial = parse tokens fuel initial).
    { apply parse_agrees. intros s1. rewrite E. discriminate. }
    rewrite Hp, E in Ha. discriminate.
Qed.

Lemma parse_without_sentinel_is_out_of_range_witness :
  (forall t, In t [sample.tok TokenType.Print "print" 1; sample.number "1" 1%float 1]
             -> type t <> TokenType.EndOfFile) /\
  List.length [sample.tok TokenType.Print "print" 1; sample.number "1" 1%float 1] < 3 /\
  exists s',
    parse [sample.tok TokenType.Print "print" 1; sample.number "1" 1%float 1] 3 initial
      = OutOfRange s'.
Proof.
  assert (Hno : forall t,
            In t [sample.tok TokenType.Print "print" 1; sample.number "1" 1%float 1]
            -> type t <> TokenType.EndOfFile).
  { intros t [<- | [<- | []]]; discriminate. }
  split; [exact Hno |]. split; [simpl; lia |].
  apply (parse_without_sentinel_is_out_of_range
           [sample.tok TokenType.Print "print" 1; sample.number "1" 1%float 1] 3 Hno).
  simpl; lia.
Defined.

(** X17. The cursor is kept between calls, so a second [parse] on the
    same parser finds nothing left: it returns an empty vector, reports
    nothing and leaves the cursor where the first call put it. *)
Theorem second_parse_returns_nothing
    (tokens : list Token) (fuel fuel' : nat) (s s' : State)
    (l : list (option Stmt)) :
  parse tokens fuel s = Ok l s' ->
  parse tokens (S fuel') s' = Ok [] s'.
Proof.
  intros H.
  pose proof (parse_loop_stops_at_end tokens fuel fuel [] s) as Hw.
  unfold wlp in Hw. fold (parse tokens fuel) in Hw. rewrite H in Hw.
  destruct Hw as [Hend [t Ht]].
  unfold parse. cbn [parse_loop]. unfold bind.
  rewrite (isAtEnd_here tokens s' t Ht).
  unfold at_end in Hend. rewrite Ht in Hend. rewrite Hend. reflexivity.
Qed.

Lemma second_parse_returns_nothing_witness :
  parse sample.two_errors 13 initial =
    Ok sample.two_errors_statements (mkState 12 sample.two_errors_diagnostics) /\
  parse sample.two_errors 1 (mkState 12 sample.two_errors_diagnostics) =
    Ok [] (mkState 12 sample.two_errors_diagnostics).
Proof.
  assert (H : parse sample.two_errors 13 initial =
                Ok sample.two_errors_statements
                   (mkState 12 sample.two_errors_diagnostics))
    by (vm_compute; reflexivity).
  split; [exact H |].
  exact (second_parse_returns_nothing sample.two_errors 13 0 initial _ _ H).
Defined.

Lemma synchronize_loop_keeps_diagnostics tokens n s :
  wlp (synchronize_loop tokens n) (fun _ s' => diagnostics s' = diagnostics s)
      (fun _ _ => Logic.False) s.
Proof.
  revert s. induction n as [| n IH]; intros s; cbn [synchronize_loop].
  - apply wlp_out_of_fuel.
  - apply wlp_bind, wlp_isAtEnd. intros [|]; [apply wlp_ret; reflexivity |].
    apply wlp_bind, wlp_previous. intros p.
    destruct (TokenType_eqb (type p) TokenType.Semicolon); [apply wlp_ret; reflexivity |].
    apply wlp_bind, wlp_peek. intros t _.
    destruct (starts_statement (type t)); [apply wlp_ret; reflexivity |].
    apply wlp_bind, wlp_advance; intros _;
      (eapply wlp_conseq; [apply IH | cbv beta; intros ? ? H; exact H | auto]).
Qed.

Lemma synchronize_keeps_diagnostics tokens n s :
  wlp (synchronize tokens n) (fun _ s' => diagnostics s' = diagnostics s)
      (fun _ _ => Logic.False) s.
Proof.
  unfold synchronize. apply wlp_bind, wlp_advance; intros _;
    (eapply wlp_conseq;
     [apply synchronize_loop_keeps_diagnostics | cbv beta; intros ? ? H; exact H | auto]).
Qed.

(** X18. A null entry stands for exactly one caught error, reported
    with the line of the token the parser stopped at: when [declaration]
    returns a null pointer, the body of its [try] has thrown an error
    whose token is the token then under the cursor, and the diagnostics
    on return are those of the moment of the throw followed by that
    token's line with the error's message. *)
Theorem null_entry_reports_the_offending_line
    (tokens : list Token) (fuel : nat) (s s' : State) :
  declaration tokens fuel s = Ok None s' ->
  exists ex s1,
    declaration_body tokens (statement tokens fuel) fuel s = Throw ex s1 /\
    nth_error tokens (current s1) = Some (token ex) /\
    diagnostics s' = (diagnostics s1 ++ [(line (token ex), what ex)])%list.
Proof.
  unfold declaration, declaration_of, try_catch, bind at 1.
  pose proof (declaration_body_tracked tokens _ (statement_tracked tokens fuel) fuel s)
    as Hb.
  unfold wlp in Hb.
  destruct (declaration_body tokens (statement tokens fuel) fuel s)
    as [st s1 | ex s1 | s1 |]; try discriminate.
  destruct Hb as [_ Hn].
  intros H. exists ex, s1. split; [reflexivity |]. split; [exact Hn |].
  unfold bind at 1, error at 1 in H. unfold bind at 1 in H.
  pose proof (synchronize_keeps_diagnostics tokens fuel
                (mkState (current s1)
                   (diagnostics s1 ++ [(line (token ex), what ex)]))) as Hs.
  unfold wlp in Hs.
  destruct (synchronize tokens fuel _) as [u s2 | | |]; try discriminate.
  unfold ret in H. injection H as <-. exact Hs.
Qed.

Lemma null_entry_reports_the_offending_line_witness :
  declaration sample.two_errors 13 initial =
    Ok None (mkState 2 [(1%Z, "Expect expression")]) /\
  exists ex s1,
    declaration_body sample.two_errors (statement sample.two_errors 13) 13 initial
      = Throw ex s1 /\
    nth_error sample.two_errors (current s1) = Some (token ex) /\
    diagnostics (mkState 2 [(1%Z, "Expect expression")]) =
      (diagnostics s1 ++ [(line (token ex), what ex)])%list.
Proof.
  assert (H : declaration sample.two_errors 13 initial =
                Ok None (mkState 2 [(1%Z, "Expect expression")]))
    by (vm_compute; reflexivity).
  split; [exact H |].
  exact (null_entry_reports_the_offending_line sample.two_errors 13 initial _ H).
Defined.
